(** * xdrngtool: the consumption-path planner ([xdrngtool/search_path.py])

    A shallow embedding of [search_path] and of the two helpers that solve
    [63*x + 40*y = total] with the smallest [x + y], followed by the
    properties of the planner that the specification states.

    Python integers are unbounded and are modelled by [Z]; [//] and [%] with a
    positive divisor are [Z.div] and [Z.modulo].  The only floating-point
    operation of the module, the true division in
    [math.floor(-11 * total_advances / 63)], is modelled by a correctly
    rounded binary64 quotient (module [Float64]).  Exceptions are values of
    [exn] carried by [result]. *)

From Stdlib Require Import ZArith List Bool Lia.
Import ListNotations.

Local Open Scope Z_scope.

(** ** Exceptions and results *)

(** The exceptions the module can meet.  [CANNOT_REACH target current] is
    [Exception(f"No way to reach {target_seed:X} from {current_seed:X}.")];
    [Infeasible total] is the exception of the exhaustive search. *)
Inductive exn : Type :=
| CANNOT_REACH (target_seed current_seed : Z)
| Infeasible (total_advances : Z)
| OverflowError
| ZeroDivisionError
| IndexError
| ValueError.

Inductive result (A : Type) : Type :=
| Ok (a : A)
| Raise (e : exn).

Arguments Ok {A} a.
Arguments Raise {A} e.

Definition bind {A B : Type} (r : result A) (k : A -> result B) : result B :=
  match r with
  | Ok a => k a
  | Raise e => Raise e
  end.

Notation "x <- r ;; k" := (bind r (fun x => k))
  (at level 61, r at next level, right associativity).

(** [try: r except: raise e], the bare [except] clause of [search_path]. *)
Definition try_except_raise {A : Type} (r : result A) (e : exn) : result A :=
  match r with
  | Ok a => Ok a
  | Raise _ => Raise e
  end.

(** ** Binary64 true division and [math.floor] *)

Module Float64.

(** A finite binary64 number: [(-1)^neg * man * 2^exp]. *)
Record float : Type := mk { neg : bool; man : Z; exp : Z }.

(** [floor (log2 (n / d))] for positive [n] and [d]. *)
Definition ilog2_quot (n d : Z) : Z :=
  let k := Z.log2 n - Z.log2 d in
  if (if 0 <=? k then d * 2 ^ k <=? n else d <=? n * 2 ^ (- k))
  then k else k - 1.

(** [num / den] rounded to the nearest integer, ties to even. *)
Definition round_half_even (num den : Z) : Z :=
  let q := num / den in
  let r := num mod den in
  match 2 * r ?= den with
  | Lt => q
  | Gt => q + 1
  | Eq => if Z.even q then q else q + 1
  end.

(** [a / b] on two Python integers: the quotient correctly rounded to
    binary64 (53 bits of precision, least exponent -1074), or
    [OverflowError] when it is too large for a float. *)
Definition true_divide (a b : Z) : result float :=
  if b =? 0 then Raise ZeroDivisionError
  else if a =? 0 then Ok (mk false 0 0)
  else
    let s := xorb (a <? 0) (b <? 0) in
    let n := Z.abs a in
    let d := Z.abs b in
    let e := Z.max (ilog2_quot n d - 52) (-1074) in
    let m := if 0 <=? e then round_half_even n (d * 2 ^ e)
             else round_half_even (n * 2 ^ (- e)) d in
    if (0 <=? e) && (2 ^ 1024 <=? m * 2 ^ e) then Raise OverflowError
    else Ok (mk s m e).

(** [math.floor] of a finite float. *)
Definition floor (f : float) : Z :=
  let sm := if neg f then - man f else man f in
  if 0 <=? exp f then sm * 2 ^ exp f else sm / 2 ^ (- exp f).

End Float64.

(** ** The action-cost solver *)

(** Modelled from the spec: [xdrngtool/constant.py] is not part of the
    analysed sources; the specification fixes
    [CHANGE_SETTING_STEPS = 40] and [WRITE_REPORT_STEPS = 63]. *)
Definition ADVANCES_BY_CHANGING_SETTING : Z := 40.
Definition ADVANCES_BY_WRITING_REPORT : Z := 63.

(** [range(n)]: empty when [n <= 0]. *)
Definition range (n : Z) : list Z := map Z.of_nat (seq 0 (Z.to_nat n)).

(** [sorted(l, key=key)]: a stable sort, here by insertion. *)
Fixpoint insert_by {A : Type} (key : A -> Z) (a : A) (l : list A) : list A :=
  match l with
  | [] => [a]
  | b :: l' => if key a <=? key b then a :: b :: l' else b :: insert_by key a l'
  end.

Definition sorted {A : Type} (key : A -> Z) (l : list A) : list A :=
  fold_right (insert_by key) [] l.

Definition pair_sum (p : Z * Z) : Z := fst p + snd p.

(** The two nested [for] loops that collect the pairs. *)
Definition collect_pairs (total_advances : Z) : list (Z * Z) :=
  flat_map
    (fun x =>
       flat_map
         (fun y => if 63 * x + 40 * y =? total_advances then [(x, y)] else [])
         (range (total_advances / 40 + 1)))
    (range (total_advances / 63 + 1)).

Definition _search_pair_with_the_smallest_sum_under_2520
    (total_advances : Z) : result (Z * Z) :=
  let pairs := collect_pairs total_advances in
  if (Z.of_nat (length pairs) =? 0) then Raise (Infeasible total_advances)
  else
    match sorted pair_sum pairs with
    | p :: _ => Ok p
    | [] => Raise IndexError
    end.

Definition _search_pair_with_the_smallest_sum
    (total_advances : Z) : result (Z * Z) :=
  if total_advances <? 2520 then
    _search_pair_with_the_smallest_sum_under_2520 total_advances
  else
    q <- Float64.true_divide (-11 * total_advances) 63 ;;
    let t := Float64.floor q in
    Ok (40 * t + 7 * total_advances, -63 * t - 11 * total_advances).

(** A non-negative solution of [63*x + 40*y = total]. *)
Definition solution (total x y : Z) : Prop :=
  0 <= x /\ 0 <= y /\ 63 * x + 40 * y = total.

(** A solution whose sum no other solution undercuts. *)
Definition minimal_solution (total x y : Z) : Prop :=
  solution total x y /\
  forall x' y', solution total x' y' -> x + y <= x' + y'.

(** A list whose keys never decrease. *)
Inductive ascending {A : Type} (key : A -> Z) : list A -> Prop :=
| ascending_nil : ascending key []
| ascending_cons a l :
    (forall b, In b l -> key a <= key b) -> ascending key l ->
    ascending key (a :: l).

(** The first total on which the binary64 quotient of the closed form is no
    longer the exact one. *)
Definition closed_form_limit : Z := 1612083957524672.

(** ** Python list operations used by the planner *)

(** [l.pop()] as an expression on the list: the list without its last
    element, [IndexError] on the empty list. *)
Definition list_pop {A : Type} (l : list A) : result (list A) :=
  match l with
  | [] => Raise IndexError
  | _ :: _ => Ok (removelast l)
  end.

(** [l[-1]]. *)
Definition get_last {A : Type} (l : list A) : result A :=
  match rev l with
  | [] => Raise IndexError
  | a :: _ => Ok a
  end.

(** [l[0]]. *)
Definition get_first {A : Type} (l : list A) : result A :=
  match l with
  | [] => Raise IndexError
  | a :: _ => Ok a
  end.

(** [l[:k]]; a negative [k] counts from the end. *)
Definition slice_to {A : Type} (l : list A) (k : Z) : list A :=
  if 0 <=? k then firstn (Z.to_nat k) l
  else firstn (length l - Z.to_nat (- k)) l.

(** [l.index(True)]. *)
Fixpoint index_True (l : list bool) : result Z :=
  match l with
  | [] => Raise ValueError
  | b :: l' => if b then Ok 0 else (i <- index_True l' ;; Ok (i + 1))
  end.

Definition len {A : Type} (l : list A) : Z := Z.of_nat (length l).

(** ** The path planner *)

Section Planner.

(** The collaborators of [search_path] that live in other packages:
    the generator [lcg.gc.LCG], [xddb.generate_quick_battle] and
    [util.decode_quick_battle].  A generator object is represented by its
    seed. *)
Variables TeamPair PSVs Raw : Type.

(** [LCG.get_index(seed=seed, init_seed=init_seed)] *)
Variable get_index : Z -> Z -> Z.

(** [generate_quick_battle(lcg, tsv)]: the raw sample, and the seed the
    generator has been advanced to. *)
Variable generate_quick_battle : Z -> option Z -> Raw * Z.

Variable decode_quick_battle : Raw -> TeamPair * PSVs.

(** [lcg.index_from(init_seed)] *)
Definition index_from (lcg init_seed : Z) : Z := get_index lcg init_seed.

(** [decode_quick_battle(generate_quick_battle(lcg, tsv) if tsv is not None
    else generate_quick_battle(lcg))], with the seed [lcg] is left at. *)
Definition quick_battle (lcg : Z) (tsv : option Z) : (TeamPair * PSVs) * Z :=
  let (raw, lcg') := generate_quick_battle lcg tsv in
  (decode_quick_battle raw, lcg').

(** An entry of [sequence]: the decoded teams and the steps left. *)
Definition item : Type := TeamPair * Z.

(** A probe record of the path: teams, seed before the probe, PSVs. *)
Definition record : Type := TeamPair * Z * PSVs.

(** The path: probe records, [change_setting], [write_report]. *)
Definition Path : Type := list record * Z * Z.

(** The [while] loop that samples quick battles until the target has been
    passed.  [None] when [fuel] iterations were not enough. *)
Fixpoint scan (fuel : nat) (current_seed total_advances : Z) (tsv : option Z)
    (lcg : Z) (sequence : list item) : option (Z * list item) :=
  match fuel with
  | O => None
  | S fuel' =>
      if index_from lcg current_seed <=? total_advances then
        let (decoded, lcg') := quick_battle lcg tsv in
        let team_pair := fst decoded in
        let leftover := total_advances - index_from lcg' current_seed in
        scan fuel' current_seed total_advances tsv lcg'
          (sequence ++ [(team_pair, leftover)])
      else Some (lcg, sequence)
  end.

(** The branch [advances_by_opening_items is None]: the teams to keep and
    the steps left for changing the setting. *)
Definition plan_without_loading (CANNOT_REACH_EXCEPTION : exn)
    (total_advances : Z) (sequence : list item) : result (list TeamPair * Z) :=
  if len sequence =? 0 then
    if negb (total_advances mod ADVANCES_BY_CHANGING_SETTING =? 0)
    then Raise CANNOT_REACH_EXCEPTION
    else Ok ([], total_advances)
  else
    let can_finish :=
      map (fun item : item => snd item mod ADVANCES_BY_CHANGING_SETTING =? 0)
        sequence in
    last_index <-
      match index_True (rev can_finish) with
      | Ok i => Ok (len can_finish - i - 1)
      | Raise ValueError => Raise CANNOT_REACH_EXCEPTION
      | Raise e => Raise e
      end ;;
    if last_index =? 0 then
      first <- get_first sequence ;;
      Ok (map fst sequence, snd first)
    else
      last <- get_last (slice_to sequence (last_index + 1)) ;;
      Ok (slice_to (map fst sequence) (last_index + 1), snd last).

(** The loop [while sequence[-1][1] < bound: sequence.pop()] inside
    [try ... except IndexError: pass], on the reversed list: its head is
    [sequence[-1]], and the empty list ends the loop. *)
Fixpoint pop_while_below (bound : Z) (reversed : list item) : list item :=
  match reversed with
  | [] => []
  | last :: rest =>
      if snd last <? bound then pop_while_below bound rest else reversed
  end.

Definition drop_trailing (bound : Z) (sequence : list item) : list item :=
  rev (pop_while_below bound (rev sequence)).

(** The steps handed to the solver in the branch
    [advances_by_opening_items is not None], with the entries kept. *)
Definition loading_leftover (total_advances advances_by_loading : Z)
    (sequence : list item) : result (list item * Z) :=
  if len sequence =? 0 then
    Ok (sequence, total_advances - advances_by_loading)
  else
    let sequence' :=
      drop_trailing
        (ADVANCES_BY_WRITING_REPORT * ADVANCES_BY_CHANGING_SETTING
         + advances_by_loading) sequence in
    if len sequence' =? 0 then
      Ok (sequence', total_advances - advances_by_loading)
    else
      last <- get_last sequence' ;;
      Ok (sequence', snd last - advances_by_loading).

(** The loop that rebuilds the probes of the path from [current_seed]. *)
Fixpoint reconstruct (tsv : option Z) (_lcg : Z) (_teams : list TeamPair)
    : list record :=
  match _teams with
  | [] => []
  | _ :: rest =>
      let seed_before := _lcg in
      let (decoded, _lcg') := quick_battle _lcg tsv in
      (fst decoded, seed_before, snd decoded) :: reconstruct tsv _lcg' rest
  end.

(** What [search_path] does once [sequence] has lost its last entry. *)
Definition plan (current_seed target_seed : Z) (tsv : option Z)
    (advances_by_opening_items : option Z) (sequence : list item)
    : result Path :=
  let CANNOT_REACH_EXCEPTION := CANNOT_REACH target_seed current_seed in
  let total_advances := get_index target_seed current_seed in
  match advances_by_opening_items with
  | None =>
      chosen <- plan_without_loading CANNOT_REACH_EXCEPTION total_advances
                  sequence ;;
      let (_teams, leftover) := chosen : list TeamPair * Z in
      let change_setting := leftover / ADVANCES_BY_CHANGING_SETTING in
      Ok (reconstruct tsv current_seed _teams, change_setting, 0)
  | Some opening =>
      let advances_by_loading := (opening - 1) * 2 in
      kept <- loading_leftover total_advances advances_by_loading sequence ;;
      let (sequence', leftover) := kept : list item * Z in
      pair <- try_except_raise (_search_pair_with_the_smallest_sum leftover)
                CANNOT_REACH_EXCEPTION ;;
      let (write_report, change_setting) := pair : Z * Z in
      Ok (reconstruct tsv current_seed (map fst sequence'),
          change_setting, write_report)
  end.

(** *** Replaying *)

(** The seed one probe further. *)
Definition next_seed (tsv : option Z) (lcg : Z) : Z :=
  snd (quick_battle lcg tsv).

(** The seed [n] probes further. *)
Fixpoint seed_after (tsv : option Z) (n : nat) (lcg : Z) : Z :=
  match n with
  | O => lcg
  | S n' => seed_after tsv n' (next_seed tsv lcg)
  end.

(** The entry one iteration of the scanning loop appends, and the entries
    that [n] iterations append. *)
Definition sample (current_seed total_advances : Z) (tsv : option Z)
    (lcg : Z) : item :=
  (fst (fst (quick_battle lcg tsv)),
   total_advances - index_from (next_seed tsv lcg) current_seed).

Fixpoint samples (n : nat) (current_seed total_advances : Z)
    (tsv : option Z) (lcg : Z) : list item :=
  match n with
  | O => []
  | S n' =>
      sample current_seed total_advances tsv lcg
      :: samples n' current_seed total_advances tsv (next_seed tsv lcg)
  end.

(** The seed the generator is left at when the probes of [records] have
    been replayed from [current_seed]. *)
Definition seed_after_records (tsv : option Z) (current_seed : Z)
    (records : list record) : Z :=
  last (map (fun r : record => next_seed tsv (snd (fst r))) records)
    current_seed.

(** The steps from [current_seed] that replaying a path consumes: its
    probes, then [advances_by_loading], 40 per change of setting and 63 per
    report. *)
Definition replayed_steps (tsv : option Z) (current_seed : Z)
    (advances_by_loading : Z) (path : Path) : Z :=
  let (probes, write_report) := path in
  let (records, change_setting) := probes in
  index_from (seed_after_records tsv current_seed records) current_seed
  + advances_by_loading
  + ADVANCES_BY_CHANGING_SETTING * change_setting
  + ADVANCES_BY_WRITING_REPORT * write_report.

Definition search_path (fuel : nat) (current_seed target_seed : Z)
    (tsv : option Z) (advances_by_opening_items : option Z)
    : option (result Path) :=
  let total_advances := get_index target_seed current_seed in
  match scan fuel current_seed total_advances tsv current_seed [] with
  | None => None
  | Some (_, sequence) =>
      Some (sequence <- list_pop sequence ;;
            plan current_seed target_seed tsv advances_by_opening_items
              sequence)
  end.

End Planner.

Arguments index_from get_index lcg init_seed /.
Arguments quick_battle {TeamPair PSVs Raw}.
Arguments scan {TeamPair PSVs Raw}.
Arguments plan_without_loading {TeamPair}.
Arguments pop_while_below {TeamPair}.
Arguments drop_trailing {TeamPair}.
Arguments loading_leftover {TeamPair}.
Arguments reconstruct {TeamPair PSVs Raw}.
Arguments plan {TeamPair PSVs Raw}.
Arguments search_path {TeamPair PSVs Raw}.
Arguments next_seed {TeamPair PSVs Raw}.
Arguments seed_after {TeamPair PSVs Raw}.
Arguments sample {TeamPair PSVs Raw}.
Arguments samples {TeamPair PSVs Raw}.
Arguments seed_after_records {TeamPair PSVs Raw}.
Arguments replayed_steps {TeamPair PSVs Raw}.

(** The steps loading consumes: none when [advances_by_opening_items] is
    [None]. *)
Definition advances_by_loading (advances_by_opening_items : option Z) : Z :=
  match advances_by_opening_items with
  | None => 0
  | Some opening => (opening - 1) * 2
  end.

(** ** A generator for the examples

    Seeds count the steps taken, every quick battle takes [cost] steps, and
    the teams decoded are the seed the battle was generated from. *)
Module FixedCost.

Definition get_index (seed init_seed : Z) : Z := seed - init_seed.

Definition generate_quick_battle (cost : Z) (lcg : Z) (tsv : option Z)
    : Z * Z :=
  (lcg, lcg + cost).

Definition decode_quick_battle (raw : Z) : Z * list Z := (raw, []).

Definition search_path (cost : Z) :=
  search_path get_index (generate_quick_battle cost) decode_quick_battle.

End FixedCost.

(** * Properties *)

(** ** The exhaustive search *)

Lemma In_range (n x : Z) : In x (range n) <-> 0 <= x < n.
Proof.
  unfold range. rewrite in_map_iff. split.
  - intros (k & <- & Hk). apply in_seq in Hk. lia.
  - intros Hx. exists (Z.to_nat x). split; [lia|]. apply in_seq. lia.
Qed.

Lemma In_collect_pairs (total x y : Z) :
  In (x, y) (collect_pairs total) <-> solution total x y.
Proof.
  unfold collect_pairs, solution. rewrite in_flat_map. split.
  - intros (x0 & Hx0 & Hin). apply in_flat_map in Hin.
    destruct Hin as (y0 & Hy0 & Hin).
    apply In_range in Hx0. apply In_range in Hy0.
    destruct (Z.eqb_spec (63 * x0 + 40 * y0) total) as [Heq|Hne].
    + destruct Hin as [Hp|[]]. inversion Hp; subst x0 y0. lia.
    + destruct Hin.
  - intros (Hx & Hy & Heq). exists x. split.
    + apply In_range. split; [lia|].
      assert (x <= total / 63) by (apply Z.div_le_lower_bound; lia). lia.
    + apply in_flat_map. exists y. split.
      * apply In_range. split; [lia|].
        assert (y <= total / 40) by (apply Z.div_le_lower_bound; lia). lia.
      * rewrite (proj2 (Z.eqb_eq _ _) Heq). now left.
Qed.

Section Sorted.
Context {A : Type} (key : A -> Z).

Lemma In_insert_by (a b : A) (l : list A) :
  In b (insert_by key a l) <-> b = a \/ In b l.
Proof.
  induction l as [|c l IH]; simpl.
  - intuition.
  - destruct (key a <=? key c); simpl; rewrite ?IH; intuition.
Qed.

Lemma In_sorted (b : A) (l : list A) : In b (sorted key l) <-> In b l.
Proof.
  induction l as [|a l IH]; simpl; [tauto|].
  rewrite In_insert_by, IH. intuition.
Qed.

Lemma insert_by_ascending (a : A) (l : list A) :
  ascending key l -> ascending key (insert_by key a l).
Proof.
  induction 1 as [|c l Hc Hl IH]; simpl.
  - constructor; [intros b []|constructor].
  - destruct (Z.leb_spec (key a) (key c)).
    + constructor; [|now constructor].
      intros b [<-|Hb]; [lia|]. specialize (Hc b Hb). lia.
    + constructor; [|exact IH].
      intros b Hb. apply In_insert_by in Hb. destruct Hb as [->|Hb]; [lia|auto].
Qed.

Lemma sorted_ascending (l : list A) : ascending key (sorted key l).
Proof.
  induction l as [|a l IH]; simpl; [constructor|].
  now apply insert_by_ascending.
Qed.

Lemma sorted_head (l : list A) (p : A) (rest : list A) :
  sorted key l = p :: rest ->
  In p l /\ forall q, In q l -> key p <= key q.
Proof.
  intros Hs. split.
  - apply In_sorted. rewrite Hs. now left.
  - intros q Hq. apply In_sorted in Hq. rewrite Hs in Hq.
    pose proof (sorted_ascending l) as Hasc. rewrite Hs in Hasc.
    inversion Hasc as [|? ? Hle _]; subst.
    destruct Hq as [<-|Hq]; [lia|auto].
Qed.

Lemma sorted_nil_inv (l : list A) : sorted key l = [] -> l = [].
Proof.
  destruct l as [|a l]; [reflexivity|]. intros Hs. exfalso.
  assert (Hin : In a (sorted key (a :: l))) by (apply In_sorted; now left).
  rewrite Hs in Hin. destruct Hin.
Qed.

End Sorted.

(** The exhaustive search either finds no pair at all and raises, or returns
    a solution of least sum. *)
Lemma under_2520_cases (total : Z) :
  (_search_pair_with_the_smallest_sum_under_2520 total = Raise (Infeasible total)
   /\ forall x y, ~ solution total x y)
  \/ exists x y,
      _search_pair_with_the_smallest_sum_under_2520 total = Ok (x, y)
      /\ minimal_solution total x y.
Proof.
  unfold _search_pair_with_the_smallest_sum_under_2520.
  destruct (collect_pairs total) as [|p0 l] eqn:Hc.
  - left. split; [reflexivity|].
    intros x y Hs. apply In_collect_pairs in Hs. rewrite Hc in Hs. destruct Hs.
  - right. change (Z.of_nat (length (p0 :: l)) =? 0) with false. cbv iota.
    destruct (sorted pair_sum (p0 :: l)) as [|[x y] rest] eqn:Hs.
    + apply sorted_nil_inv in Hs. discriminate.
    + exists x, y. split; [reflexivity|].
      apply sorted_head in Hs. destruct Hs as [Hin Hmin].
      rewrite <- Hc in *. split.
      * now apply In_collect_pairs.
      * intros x' y' Hs'. apply In_collect_pairs in Hs'.
        apply (Hmin (x', y') Hs').
Qed.

Lemma solution_unique_under_2520 (total x y x' y' : Z) :
  total < 2520 -> solution total x y -> solution total x' y' ->
  x = x' /\ y = y'.
Proof. unfold solution. lia. Qed.

(** ** The binary64 quotient of the closed form *)

Lemma ilog2_quot_bounds (n d : Z) :
  0 < d <= n ->
  0 <= Float64.ilog2_quot n d /\
  d * 2 ^ Float64.ilog2_quot n d <= n < d * 2 ^ (Float64.ilog2_quot n d + 1).
Proof.
  intros [Hd Hn]. unfold Float64.ilog2_quot.
  pose proof (Z.log2_spec n ltac:(lia)) as [Hn1 Hn2].
  pose proof (Z.log2_spec d Hd) as [Hd1 Hd2].
  pose proof (Z.log2_le_mono d n Hn) as Hmono.
  pose proof (Z.log2_nonneg d) as Hld.
  set (k := Z.log2 n - Z.log2 d) in *.
  assert (Hk : 0 <= k) by lia.
  assert (Hpk : 0 < 2 ^ k) by (apply Z.pow_pos_nonneg; lia).
  assert (Hsplit : 2 ^ Z.log2 n = 2 ^ Z.log2 d * 2 ^ k).
  { rewrite <- Z.pow_add_r by lia. f_equal. lia. }
  replace (Z.succ (Z.log2 n)) with (Z.log2 n + 1) in Hn2 by lia.
  replace (Z.succ (Z.log2 d)) with (Z.log2 d + 1) in Hd2 by lia.
  rewrite Z.pow_add_r in Hn2, Hd2 by lia.
  change (2 ^ 1) with 2 in *.
  rewrite (proj2 (Z.leb_le 0 k) Hk).
  destruct (Z.leb_spec (d * 2 ^ k) n) as [Hle|Hgt].
  - split; [lia|]. split; [lia|].
    rewrite Z.pow_add_r by lia. change (2 ^ 1) with 2. nia.
  - assert (Hk1 : 1 <= k).
    { destruct (Z.eq_dec k 0) as [Hk0|]; [|lia].
      rewrite Hk0 in Hgt. change (2 ^ 0) with 1 in Hgt. lia. }
    replace (k - 1 + 1) with k by lia.
    split; [lia|]. split; [|lia].
    assert (Hpk' : 2 ^ k = 2 ^ (k - 1) * 2).
    { replace k with (k - 1 + 1) at 1 by lia.
      rewrite Z.pow_add_r by lia. reflexivity. }
    assert (0 < 2 ^ (k - 1)) by (apply Z.pow_pos_nonneg; lia).
    nia.
Qed.

Lemma round_half_even_near (num den : Z) :
  0 < den -> den mod 2 = 1 ->
  - den < 2 * (den * Float64.round_half_even num den - num) < den.
Proof.
  intros Hden Hodd. unfold Float64.round_half_even.
  pose proof (Z.div_mod num den ltac:(lia)) as Hdm.
  pose proof (Z.mod_pos_bound num den Hden) as Hr.
  set (q := num / den) in *. set (r := num mod den) in *.
  destruct (Z.compare_spec (2 * r) den) as [Heq|Hlt|Hgt].
  - exfalso. rewrite <- Heq, Z.mul_comm, Z_mod_mult in Hodd. discriminate.
  - lia.
  - replace (den * (q + 1)) with (den * q + den) by ring. lia.
Qed.

(** Below [63 * 2^48] the rounded quotient has at least five fractional
    bits, and its floor is the floor of the exact quotient. *)
Lemma floor_true_divide_63 (n : Z) :
  63 * 2 ^ 8 <= n < 63 * 2 ^ 48 ->
  exists q, Float64.true_divide (- n) 63 = Ok q /\ Float64.floor q = (- n) / 63.
Proof.
  intros [Hlo Hhi]. unfold Float64.true_divide.
  change (63 =? 0) with false. cbv iota.
  destruct (Z.eqb_spec (- n) 0) as [H0|_]; [lia|].
  replace (Z.abs (- n)) with n by lia. change (Z.abs 63) with 63.
  destruct (ilog2_quot_bounds n 63 ltac:(lia)) as (HL0 & HL1 & HL2).
  set (L := Float64.ilog2_quot n 63) in *.
  assert (HL : 8 <= L <= 47).
  { split.
    - destruct (Z_lt_le_dec L 8) as [Hlt|]; [|lia]. exfalso.
      assert (2 ^ (L + 1) <= 2 ^ 8) by (apply Z.pow_le_mono_r; lia). lia.
    - destruct (Z_lt_le_dec 47 L) as [Hlt|]; [|lia]. exfalso.
      assert (2 ^ 48 <= 2 ^ L) by (apply Z.pow_le_mono_r; lia). lia. }
  replace (Z.max (L - 52) (-1074)) with (L - 52) by lia.
  destruct (Z.leb_spec 0 (L - 52)) as [Hge|Hneg]; [lia|].
  cbn [andb]. eexists. split; [reflexivity|].
  unfold Float64.floor. cbn [Float64.neg Float64.man Float64.exp].
  replace (- n <? 0) with true by (symmetry; apply Z.ltb_lt; lia).
  change (63 <? 0) with false. cbn [xorb].
  destruct (Z.leb_spec 0 (L - 52)) as [Hge|_]; [lia|].
  replace (- (L - 52)) with (52 - L) by lia.
  set (P := 2 ^ (52 - L)).
  assert (HP : 32 <= P).
  { change 32 with (2 ^ 5). apply Z.pow_le_mono_r; lia. }
  pose proof (round_half_even_near (n * P) 63 ltac:(lia) eq_refl) as Hm.
  set (m := Float64.round_half_even (n * P) 63) in *.
  pose proof (Z.div_mod (- n) 63 ltac:(lia)) as Hdm.
  pose proof (Z.mod_pos_bound (- n) 63 ltac:(lia)) as Hr.
  set (c := - n / 63) in *. set (r := (- n) mod 63) in *.
  symmetry. apply (Z.div_unique_pos (- m) P c (- m - P * c)); [|lia].
  nia.
Qed.

Lemma closed_form_floor (total : Z) :
  2520 <= total < closed_form_limit ->
  exists q, Float64.true_divide (-11 * total) 63 = Ok q
            /\ Float64.floor q = (-11 * total) / 63.
Proof.
  unfold closed_form_limit. intros [Hlo Hhi].
  destruct (Z_lt_le_dec total 1612083957524667) as [Hsmall|Hbig].
  - replace (-11 * total) with (- (11 * total)) by ring.
    apply floor_true_divide_63. change (2 ^ 8) with 256.
    change (2 ^ 48) with 281474976710656. lia.
  - assert (Hcases : total = 1612083957524667 \/ total = 1612083957524668
                     \/ total = 1612083957524669 \/ total = 1612083957524670
                     \/ total = 1612083957524671) by lia.
    destruct Hcases as [->|[->|[->|[->| ->]]]];
      eexists; split; vm_compute; reflexivity.
Qed.

(** ** The closed form *)

Lemma closed_form_exact (total : Z) :
  2520 <= total < closed_form_limit ->
  _search_pair_with_the_smallest_sum total =
  Ok (40 * ((-11 * total) / 63) + 7 * total,
      -63 * ((-11 * total) / 63) - 11 * total).
Proof.
  intros Hrange. unfold _search_pair_with_the_smallest_sum.
  destruct (Z.ltb_spec total 2520) as [Hlt|_]; [lia|].
  destruct (closed_form_floor total Hrange) as (q & -> & Hq).
  simpl. now rewrite Hq.
Qed.

Lemma closed_form_minimal (total : Z) :
  2520 <= total ->
  minimal_solution total
    (40 * ((-11 * total) / 63) + 7 * total)
    (-63 * ((-11 * total) / 63) - 11 * total).
Proof.
  intros Hlo.
  pose proof (Z.div_mod (-11 * total) 63 ltac:(lia)) as Hdm.
  pose proof (Z.mod_pos_bound (-11 * total) 63 ltac:(lia)) as Hr.
  set (t := (-11 * total) / 63) in *. set (r := (-11 * total) mod 63) in *.
  split.
  - unfold solution. lia.
  - intros x' y' (Hx' & Hy' & Heq).
    (* the two solutions differ by a multiple [k] of [(-40, 63)] *)
    set (k := 52 * (40 * t + 7 * total - x') - 33 * (y' - (-63 * t - 11 * total))).
    assert (Hy : y' - (-63 * t - 11 * total) = 63 * k) by (unfold k; lia).
    assert (Hx : 40 * t + 7 * total - x' = 40 * k) by lia.
    lia.
Qed.

Lemma solver_below_2520 (total : Z) :
  total < 2520 ->
  _search_pair_with_the_smallest_sum total =
  _search_pair_with_the_smallest_sum_under_2520 total.
Proof.
  intros Hlt. unfold _search_pair_with_the_smallest_sum.
  now rewrite (proj2 (Z.ltb_lt _ _) Hlt).
Qed.

(** Wherever the quotient is exact, a returned pair is a solution of least
    sum. *)
Lemma solver_Ok_minimal (total x y : Z) :
  total < closed_form_limit ->
  _search_pair_with_the_smallest_sum total = Ok (x, y) ->
  minimal_solution total x y.
Proof.
  intros Hlim Hok. destruct (Z_lt_le_dec total 2520) as [Hlt|Hge].
  - rewrite solver_below_2520 in Hok by assumption.
    destruct (under_2520_cases total) as [[Hr _]|(x0 & y0 & Hr & Hmin)];
      rewrite Hr in Hok; [discriminate|].
    now inversion Hok; subst.
  - rewrite closed_form_exact in Hok by lia.
    inversion Hok; subst. now apply closed_form_minimal.
Qed.

Lemma solver_negative (total : Z) :
  total < 0 ->
  _search_pair_with_the_smallest_sum total = Raise (Infeasible total).
Proof.
  intros Hneg. rewrite solver_below_2520 by lia.
  destruct (under_2520_cases total) as [[Hr _]|(x & y & _ & (Hs & _))];
    [exact Hr|].
  unfold solution in Hs. lia.
Qed.

(** Whatever the rounding of the quotient, a returned pair satisfies the
    equation: [63 * 40 * t] cancels. *)
Lemma solver_Ok_equation (total x y : Z) :
  _search_pair_with_the_smallest_sum total = Ok (x, y) ->
  63 * x + 40 * y = total.
Proof.
  intros Hok. destruct (Z_lt_le_dec total 2520) as [Hlt|Hge].
  - rewrite solver_below_2520 in Hok by assumption.
    destruct (under_2520_cases total) as [[Hr _]|(x0 & y0 & Hr & (Hs & _))];
      rewrite Hr in Hok; [discriminate|].
    inversion Hok; subst. apply Hs.
  - unfold _search_pair_with_the_smallest_sum in Hok.
    destruct (Z.ltb_spec total 2520) as [Hlt|_]; [lia|].
    destruct (Float64.true_divide (-11 * total) 63) as [q|e]; [|discriminate].
    cbv beta iota delta [bind] in Hok.
    assert (Hx : x = 40 * Float64.floor q + 7 * total) by congruence.
    assert (Hy : y = -63 * Float64.floor q - 11 * total) by congruence.
    rewrite Hx, Hy. ring.
Qed.

(** ** Claims on the solver *)

(** C4.  For every [0 <= total < 2520] the solver is the exhaustive search:
    it returns a pair exactly when that pair is the non-negative solution of
    [63*x + 40*y = total] with the least [x + y], and it raises (the
    exception of the exhaustive search, and no other) exactly when the
    equation has no non-negative solution.  It raises on 2417 and returns
    on 2520. *)
Theorem solver_below_2520_exhaustive (total : Z) :
  0 <= total < 2520 ->
  _search_pair_with_the_smallest_sum total =
    _search_pair_with_the_smallest_sum_under_2520 total
  /\ (forall x y,
        _search_pair_with_the_smallest_sum total = Ok (x, y)
        <-> minimal_solution total x y)
  /\ ((exists e, _search_pair_with_the_smallest_sum total = Raise e)
      <-> ~ exists x y, solution total x y)
  /\ (forall e,
        _search_pair_with_the_smallest_sum total = Raise e ->
        e = Infeasible total)
  /\ _search_pair_with_the_smallest_sum 2417 = Raise (Infeasible 2417)
  /\ _search_pair_with_the_smallest_sum 2520 = Ok (40, 0).
Proof.
  intros [Hlo Hhi].
  split; [now apply solver_below_2520|].
  rewrite solver_below_2520 by assumption.
  destruct (under_2520_cases total) as [[Hr Hnone]|(x0 & y0 & Hr & Hmin)];
    rewrite Hr.
  - split; [|split; [|split; [|split]]].
    + intros x y. split; [discriminate|].
      intros [Hs _]. destruct (Hnone x y Hs).
    + split; [|now eexists].
      intros _ (x & y & Hs). exact (Hnone x y Hs).
    + intros e He. now inversion He.
    + vm_compute. reflexivity.
    + vm_compute. reflexivity.
  - split; [|split; [|split; [|split]]].
    + intros x y. split.
      * intros Heq. now inversion Heq; subst.
      * intros [Hs _]. destruct Hmin as [Hs0 _].
        destruct (solution_unique_under_2520 total x y x0 y0 Hhi Hs Hs0).
        now subst.
    + split.
      * intros [e He]. discriminate.
      * intros Hno. exfalso. apply Hno. exists x0, y0. apply Hmin.
    + intros e He. discriminate.
    + vm_compute. reflexivity.
    + vm_compute. reflexivity.
Qed.

Lemma solver_below_2520_exhaustive_witness :
  0 <= 2417 < 2520 /\
  _search_pair_with_the_smallest_sum 2417 = Raise (Infeasible 2417) /\
  _search_pair_with_the_smallest_sum 2520 = Ok (40, 0).
Proof.
  split; [lia|].
  exact (proj2 (proj2 (proj2 (proj2
           (solver_below_2520_exhaustive 2417 ltac:(lia)))))).
Defined.

(** C2, where the code departs from it.  On the integer
    [closed_form_limit], which is at least 2520, the binary64 quotient of
    [math.floor(-11 * total_advances / 63)] is rounded to an integer above
    the exact quotient, and the pair returned has a negative second
    component: it is no non-negative solution, let alone one of least
    sum. *)
Lemma solver_fails_at_closed_form_limit :
  2520 <= closed_form_limit
  /\ _search_pair_with_the_smallest_sum closed_form_limit
     = Ok (25588634246424, -1)
  /\ ~ (exists x y,
          _search_pair_with_the_smallest_sum closed_form_limit = Ok (x, y)
          /\ 63 * x + 40 * y = closed_form_limit /\ 0 <= x /\ 0 <= y
          /\ forall x' y', 0 <= x' -> 0 <= y' ->
               63 * x' + 40 * y' = closed_form_limit -> x + y <= x' + y').
Proof.
  assert (Hv : _search_pair_with_the_smallest_sum closed_form_limit
               = Ok (25588634246424, -1)) by (vm_compute; reflexivity).
  split; [unfold closed_form_limit; lia|]. split; [exact Hv|].
  intros (x & y & Hok & _ & _ & Hy & _).
  rewrite Hv in Hok. inversion Hok; subst. lia.
Qed.

(** X15.  For every [2520 <= total < closed_form_limit] the solver
    returns a pair [(x, y)] with [63*x + 40*y = total], [0 <= x], [0 <= y],
    whose sum no other non-negative solution undercuts; it does not raise. *)
Theorem solver_closed_form_minimal (total : Z) :
  2520 <= total < closed_form_limit ->
  exists x y,
    _search_pair_with_the_smallest_sum total = Ok (x, y)
    /\ 63 * x + 40 * y = total /\ 0 <= x /\ 0 <= y
    /\ forall x' y', 0 <= x' -> 0 <= y' ->
         63 * x' + 40 * y' = total -> x + y <= x' + y'.
Proof.
  intros Hrange. eexists _, _. split; [now apply closed_form_exact|].
  destruct (closed_form_minimal total ltac:(lia)) as [(Hx & Hy & Heq) Hmin].
  repeat split; try assumption.
  intros x' y' Hx' Hy' Heq'. apply Hmin. now repeat split.
Qed.

Lemma solver_closed_form_minimal_witness :
  2520 <= 100000 < closed_form_limit
  /\ exists x y,
       _search_pair_with_the_smallest_sum 100000 = Ok (x, y)
       /\ 63 * x + 40 * y = 100000 /\ 0 <= x /\ 0 <= y
       /\ forall x' y', 0 <= x' -> 0 <= y' ->
            63 * x' + 40 * y' = 100000 -> x + y <= x' + y'.
Proof.
  assert (H : 2520 <= 100000 < closed_form_limit)
    by (unfold closed_form_limit; lia).
  split; [exact H|]. exact (solver_closed_form_minimal 100000 H).
Defined.

(** C8, where the code departs from it.  On [63 * 2^53] the solver
    returns [(2^53, 0)], of sum [s = 2^53]; on the total 2520 steps further
    the binary64 quotient is rounded below the exact one and the solver
    returns [(2^53 - 280, 504)], of sum [s + 224] and not of least sum,
    instead of [(2^53 + 40, 0)]. *)
Lemma solver_shift_fails_at_63_pow2_53 :
  _search_pair_with_the_smallest_sum (63 * 2 ^ 53) = Ok (2 ^ 53, 0)
  /\ _search_pair_with_the_smallest_sum (63 * 2 ^ 53 + 2520)
     = Ok (9007199254740712, 504)
  /\ ~ (forall total x y,
          _search_pair_with_the_smallest_sum total = Ok (x, y) ->
          exists x' y',
            _search_pair_with_the_smallest_sum (total + 2520) = Ok (x', y')
            /\ x' + y' <= x + y + 40).
Proof.
  assert (H1 : _search_pair_with_the_smallest_sum (63 * 2 ^ 53)
               = Ok (2 ^ 53, 0)) by (vm_compute; reflexivity).
  assert (H2 : _search_pair_with_the_smallest_sum (63 * 2 ^ 53 + 2520)
               = Ok (9007199254740712, 504)) by (vm_compute; reflexivity).
  split; [exact H1|]. split; [exact H2|].
  intros Hall. destruct (Hall _ _ _ H1) as (x' & y' & Hok & Hle).
  rewrite H2 in Hok. inversion Hok; subst.
  change (2 ^ 53) with 9007199254740992 in Hle. lia.
Qed.

(** X16.  For every total with [total + 2520 < closed_form_limit]
    on which the solver returns a pair of sum [s], the solver returns on
    [total + 2520] a pair of sum at most [s + 40]. *)
Theorem solver_shift_2520 (total x y : Z) :
  total + 2520 < closed_form_limit ->
  _search_pair_with_the_smallest_sum total = Ok (x, y) ->
  exists x' y',
    _search_pair_with_the_smallest_sum (total + 2520) = Ok (x', y')
    /\ x' + y' <= x + y + 40.
Proof.
  intros Hlim Hok.
  destruct (solver_Ok_minimal total x y ltac:(lia) Hok) as [Hs _].
  assert (Hnonneg : 0 <= total) by (unfold solution in Hs; lia).
  eexists _, _. split; [apply closed_form_exact; lia|].
  destruct (closed_form_minimal (total + 2520) ltac:(lia)) as [_ Hmin].
  specialize (Hmin (x + 40) y). unfold solution in *.
  specialize (Hmin ltac:(lia)). lia.
Qed.

Lemma solver_shift_2520_witness :
  103 + 2520 < closed_form_limit
  /\ _search_pair_with_the_smallest_sum 103 = Ok (1, 1)
  /\ exists x' y',
       _search_pair_with_the_smallest_sum (103 + 2520) = Ok (x', y')
       /\ x' + y' <= 1 + 1 + 40.
Proof.
  assert (H1 : 103 + 2520 < closed_form_limit)
    by (unfold closed_form_limit; lia).
  assert (H2 : _search_pair_with_the_smallest_sum 103 = Ok (1, 1))
    by (vm_compute; reflexivity).
  split; [exact H1|]. split; [exact H2|].
  exact (solver_shift_2520 103 1 1 H1 H2).
Defined.

(** ** Python list operations *)

Lemma list_pop_snoc {A : Type} (l : list A) (a : A) :
  list_pop (l ++ [a]) = Ok l.
Proof.
  unfold list_pop. destruct (l ++ [a]) eqn:E.
  - destruct l; discriminate.
  - rewrite <- E. now rewrite removelast_last.
Qed.

Lemma get_last_snoc {A : Type} (l : list A) (a : A) :
  get_last (l ++ [a]) = Ok a.
Proof. unfold get_last. now rewrite rev_unit. Qed.

Lemma last_cons_default {A : Type} (l : list A) :
  forall a d : A, last (a :: l) d = last l a.
Proof.
  induction l as [|b l IH]; intros a d; [reflexivity|].
  change (last (a :: b :: l) d) with (last (b :: l) d).
  now rewrite !IH.
Qed.

Lemma len_app {A : Type} (l1 l2 : list A) : len (l1 ++ l2) = len l1 + len l2.
Proof. unfold len. rewrite length_app. lia. Qed.

Lemma len_nonneg {A : Type} (l : list A) : 0 <= len l.
Proof. unfold len. lia. Qed.

Lemma slice_to_app {A : Type} (l1 l2 : list A) :
  slice_to (l1 ++ l2) (len l1) = l1.
Proof.
  unfold slice_to, len.
  rewrite (proj2 (Z.leb_le _ _)) by lia.
  rewrite Nat2Z.id, firstn_app, Nat.sub_diag, firstn_all. simpl.
  now rewrite app_nil_r.
Qed.

Lemma index_True_first (falses rest : list bool) :
  Forall (fun b => b = false) falses ->
  index_True (falses ++ true :: rest) = Ok (len falses).
Proof.
  induction 1 as [|b falses -> _ IH]; [reflexivity|].
  simpl. rewrite IH. simpl. f_equal. unfold len. simpl length. lia.
Qed.

Lemma index_True_none (falses : list bool) :
  Forall (fun b => b = false) falses -> index_True falses = Raise ValueError.
Proof.
  induction 1 as [|b falses -> _ IH]; [reflexivity|].
  simpl. now rewrite IH.
Qed.

(** ** The scanning loop *)

Section PlannerProperties.

Context {TeamPair PSVs Raw : Type}.
Variable get_index : Z -> Z -> Z.
Variable generate_quick_battle : Z -> option Z -> Raw * Z.
Variable decode_quick_battle : Raw -> TeamPair * PSVs.

Local Abbreviation scan :=
  (scan get_index generate_quick_battle decode_quick_battle).
Local Abbreviation next_seed :=
  (next_seed generate_quick_battle decode_quick_battle).
Local Abbreviation seed_after :=
  (seed_after generate_quick_battle decode_quick_battle).
Local Abbreviation sample :=
  (sample get_index generate_quick_battle decode_quick_battle).
Local Abbreviation samples :=
  (samples get_index generate_quick_battle decode_quick_battle).
Local Abbreviation reconstruct :=
  (reconstruct generate_quick_battle decode_quick_battle).
Local Abbreviation plan :=
  (plan get_index generate_quick_battle decode_quick_battle).
Local Abbreviation search_path :=
  (search_path get_index generate_quick_battle decode_quick_battle).
Local Abbreviation seed_after_records :=
  (seed_after_records generate_quick_battle decode_quick_battle).
Local Abbreviation replayed_steps :=
  (replayed_steps get_index generate_quick_battle decode_quick_battle).
Local Abbreviation item := (item TeamPair).

Lemma seed_after_S_r (tsv : option Z) (n : nat) (lcg : Z) :
  seed_after tsv (S n) lcg = next_seed tsv (seed_after tsv n lcg).
Proof.
  revert lcg. induction n as [|n IH]; intros lcg; [reflexivity|].
  change (seed_after tsv (S (S n)) lcg)
    with (seed_after tsv (S n) (next_seed tsv lcg)).
  now rewrite IH.
Qed.

Lemma samples_length (n : nat) (current total : Z) (tsv : option Z) (lcg : Z) :
  length (samples n current total tsv lcg) = n.
Proof.
  revert lcg. induction n as [|n IH]; intros lcg; simpl; [reflexivity|].
  now rewrite IH.
Qed.

Lemma samples_snoc (n : nat) (current total : Z) (tsv : option Z) (lcg : Z) :
  samples (S n) current total tsv lcg =
  samples n current total tsv lcg
  ++ [sample current total tsv (seed_after tsv n lcg)].
Proof.
  revert lcg. induction n as [|n IH]; intros lcg; [reflexivity|].
  change (samples (S (S n)) current total tsv lcg)
    with (sample current total tsv lcg
          :: samples (S n) current total tsv (next_seed tsv lcg)).
  rewrite IH. reflexivity.
Qed.

(** A prefix of the entries of [n] iterations is the entries of fewer
    iterations. *)
Lemma samples_prefix (current total : Z) (tsv : option Z) (l1 : list item) :
  forall (n : nat) (lcg : Z) (l2 : list item),
    samples n current total tsv lcg = l1 ++ l2 ->
    l1 = samples (length l1) current total tsv lcg.
Proof.
  induction l1 as [|a l1 IH]; intros n lcg l2 Heq; [reflexivity|].
  destruct n as [|n]; [discriminate|].
  simpl in Heq. injection Heq as Ha Hrest.
  simpl. f_equal; [now symmetry|]. exact (IH n _ l2 Hrest).
Qed.

(** What the loop returns: the entries of some [n] iterations appended to
    the list it started with, every iteration begun at an index that does
    not exceed the total, and the generator left past the total. *)
Lemma scan_samples (current total : Z) (tsv : option Z) (fuel : nat) :
  forall (lcg : Z) (acc : list item) (lcg' : Z) (sequence : list item),
    scan fuel current total tsv lcg acc = Some (lcg', sequence) ->
    exists n : nat,
      sequence = acc ++ samples n current total tsv lcg
      /\ lcg' = seed_after tsv n lcg
      /\ total < get_index lcg' current
      /\ forall j : nat,
           (j < n)%nat -> get_index (seed_after tsv j lcg) current <= total.
Proof.
  induction fuel as [|fuel IH]; intros lcg acc lcg' sequence Hscan;
    [discriminate|].
  simpl in Hscan.
  destruct (Z.leb_spec (get_index lcg current) total) as [Hle|Hgt].
  - destruct (quick_battle generate_quick_battle decode_quick_battle lcg tsv)
      as [decoded lcg1] eqn:Hq.
    apply IH in Hscan. destruct Hscan as (n & Hseq & Hlcg & Hpast & Hbelow).
    assert (Hnext : next_seed tsv lcg = lcg1)
      by (unfold next_seed; now rewrite Hq).
    exists (S n). simpl. rewrite Hnext. repeat split.
    + rewrite Hseq, <- app_assoc. simpl. unfold sample.
      unfold next_seed. rewrite Hq. reflexivity.
    + exact Hlcg.
    + exact Hpast.
    + intros [|j] Hj; [exact Hle|]. simpl. rewrite Hnext.
      apply Hbelow. lia.
  - injection Hscan as <- <-. exists O. simpl. rewrite app_nil_r.
    repeat split; [lia|]. intros j Hj. lia.
Qed.

(** The entries of the first [n] of [S n] iterations that began at or below
    the total leave a non-negative number of steps. *)
Lemma samples_nonneg (current total : Z) (tsv : option Z) (n : nat) :
  forall lcg : Z,
    (forall j : nat,
        (j < S n)%nat -> get_index (seed_after tsv j lcg) current <= total) ->
    Forall (fun it : item => 0 <= snd it) (samples n current total tsv lcg).
Proof.
  induction n as [|n IH]; intros lcg Hbelow; [constructor|].
  simpl. constructor.
  - simpl. specialize (Hbelow 1%nat ltac:(lia)). simpl in Hbelow. lia.
  - apply IH. intros j Hj. apply (Hbelow (S j)). lia.
Qed.

(** With every probe advancing the index, the loop ends. *)
Lemma scan_terminates (current total : Z) (tsv : option Z) :
  (forall lcg : Z,
      get_index lcg current <= total ->
      get_index lcg current < get_index (next_seed tsv lcg) current) ->
  forall (fuel : nat) (lcg : Z) (acc : list item),
    Z.max 1 (total - get_index lcg current + 2) <= Z.of_nat fuel ->
    exists r, scan fuel current total tsv lcg acc = Some r.
Proof.
  intros Hstep. induction fuel as [|fuel IH]; intros lcg acc Hfuel; [lia|].
  simpl. destruct (Z.leb_spec (get_index lcg current) total) as [Hle|Hgt].
  - specialize (Hstep lcg Hle). unfold next_seed in Hstep.
    destruct (quick_battle generate_quick_battle decode_quick_battle lcg tsv)
      as [decoded lcg1]. simpl in Hstep.
    apply IH. lia.
  - now eexists.
Qed.

(** From [current_seed] itself the loop runs at least once: what it returns
    is the retained entries followed by the overshooting one. *)
Lemma scan_from_current (current target : Z) (tsv : option Z) (fuel : nat)
    (lcg : Z) (sequence : list item) :
  get_index current current = 0 ->
  0 <= get_index target current ->
  scan fuel current (get_index target current) tsv current [] =
    Some (lcg, sequence) ->
  exists m : nat,
    sequence =
      samples m current (get_index target current) tsv current
      ++ [sample current (get_index target current) tsv
            (seed_after tsv m current)]
    /\ (forall j : nat,
           (j < S m)%nat ->
           get_index (seed_after tsv j current) current
           <= get_index target current)
    /\ get_index target current
       < get_index (seed_after tsv (S m) current) current.
Proof.
  intros H0 Htotal Hscan.
  apply scan_samples in Hscan.
  destruct Hscan as (n & Hseq & Hlcg & Hpast & Hbelow).
  destruct n as [|m].
  - simpl in Hlcg. subst lcg. lia.
  - exists m. rewrite samples_snoc in Hseq. simpl app in Hseq.
    subst lcg. repeat split; assumption.
Qed.

(** C9.  When the step distance is non-negative and every probe begun at or
    below it advances the generator, the scanning loop returns, with enough
    fuel, a list that ends with the overshooting entry: its body ran at
    least once, [sequence.pop()] succeeds on it, and every entry retained
    leaves a non-negative number of steps. *)
Theorem scan_pop_never_fails (current_seed target_seed : Z) (tsv : option Z) :
  get_index current_seed current_seed = 0 ->
  0 <= get_index target_seed current_seed ->
  (forall lcg : Z,
      get_index lcg current_seed <= get_index target_seed current_seed ->
      get_index lcg current_seed
      < get_index (next_seed tsv lcg) current_seed) ->
  forall fuel : nat,
    (Z.to_nat (get_index target_seed current_seed + 2) <= fuel)%nat ->
    exists (lcg : Z) (retained : list item) (overshoot : item),
      scan fuel current_seed (get_index target_seed current_seed) tsv
        current_seed [] = Some (lcg, retained ++ [overshoot])
      /\ list_pop (retained ++ [overshoot]) = Ok retained
      /\ snd overshoot < 0
      /\ Forall (fun it : item => 0 <= snd it) retained.
Proof.
  intros H0 Htotal Hstep fuel Hfuel.
  destruct (scan_terminates current_seed _ tsv Hstep fuel current_seed [])
    as [[lcg sequence] Hscan]; [lia|].
  destruct (scan_from_current _ _ _ _ _ _ H0 Htotal Hscan)
    as (m & Hseq & Hbelow & Hpast).
  exists lcg, (samples m current_seed (get_index target_seed current_seed)
                 tsv current_seed),
    (sample current_seed (get_index target_seed current_seed) tsv
       (seed_after tsv m current_seed)).
  rewrite <- Hseq. split; [exact Hscan|]. rewrite Hseq.
  split; [apply list_pop_snoc|]. split.
  - simpl. rewrite <- seed_after_S_r. lia.
  - now apply samples_nonneg.
Qed.

(** ** Without loading *)

(** Entries whose leftover 40 does not divide give [False] in [can_finish]. *)
Lemma can_finish_all_false (post : list item) :
  Forall (fun it : item => snd it mod 40 <> 0) post ->
  Forall (fun b : bool => b = false)
    (rev (map (fun it : item => snd it mod ADVANCES_BY_CHANGING_SETTING =? 0)
            post)).
Proof.
  intros Hpost. apply Forall_rev. apply Forall_map.
  eapply Forall_impl; [|exact Hpost].
  intros it Hit. now apply Z.eqb_neq.
Qed.

(** The entry chosen is the last one whose leftover 40 divides.  When it is
    not the first entry the teams are cut after it; when it is the first
    entry the branch [last_index == 0] keeps the teams of every entry. *)
Lemma plan_without_loading_hit (e : exn) (total : Z)
    (pre : list item) (hit : item) (post : list item) :
  snd hit mod 40 = 0 ->
  Forall (fun it : item => snd it mod 40 <> 0) post ->
  plan_without_loading e total (pre ++ hit :: post) =
  Ok (if len pre =? 0 then map fst (pre ++ hit :: post)
      else map fst (pre ++ [hit]),
      snd hit).
Proof.
  intros Hhit Hpost. unfold plan_without_loading.
  assert (Hlen : (len (pre ++ hit :: post) =? 0) = false).
  { apply Z.eqb_neq. rewrite len_app. unfold len at 2. simpl length.
    pose proof (len_nonneg pre). lia. }
  rewrite Hlen.
  set (can := fun it : item => snd it mod ADVANCES_BY_CHANGING_SETTING =? 0).
  rewrite map_app. simpl map. rewrite rev_app_distr. simpl rev.
  rewrite <- app_assoc. simpl app.
  assert (Hcan : can hit = true) by (apply Z.eqb_eq; exact Hhit).
  rewrite Hcan.
  rewrite (index_True_first _ _ (can_finish_all_false post Hpost)).
  cbn [bind]. fold can.
  assert (Hidx : len (map can pre ++ true :: map can post)
                 - len (rev (map can post)) - 1 = len pre).
  { rewrite len_app. unfold len. simpl length.
    rewrite length_rev, !length_map. lia. }
  rewrite Hidx.
  destruct (Z.eqb_spec (len pre) 0) as [Hz|Hnz].
  - destruct pre as [|p pre]; [reflexivity|]. unfold len in Hz. simpl in Hz. lia.
  - replace (len pre + 1) with (len (pre ++ [hit]))
      by (rewrite len_app; reflexivity).
    replace (pre ++ hit :: post) with ((pre ++ [hit]) ++ post)
      by (now rewrite <- app_assoc).
    rewrite slice_to_app, get_last_snoc. cbn [bind].
    rewrite map_app.
    replace (len (pre ++ [hit])) with (len (map fst (pre ++ [hit])))
      by (unfold len; now rewrite length_map).
    now rewrite slice_to_app.
Qed.

(** With entries but none whose leftover 40 divides, the branch raises. *)
Lemma plan_without_loading_none (e : exn) (total : Z) (sequence : list item) :
  sequence <> [] ->
  Forall (fun it : item => snd it mod 40 <> 0) sequence ->
  plan_without_loading e total sequence = Raise e.
Proof.
  intros Hne Hall. unfold plan_without_loading.
  destruct sequence as [|it sequence]; [contradiction|].
  change (len (it :: sequence) =? 0) with false. cbv iota.
  now rewrite (index_True_none _ (can_finish_all_false _ Hall)).
Qed.

(** Every non-empty list of entries is of one of the two kinds. *)
Lemma last_divisible_split (sequence : list item) :
  Forall (fun it : item => snd it mod 40 <> 0) sequence
  \/ exists pre hit post,
       sequence = pre ++ hit :: post /\ snd hit mod 40 = 0
       /\ Forall (fun it : item => snd it mod 40 <> 0) post.
Proof.
  induction sequence as [|a sequence IH]; [left; constructor|].
  destruct IH as [Hall|(pre & hit & post & -> & Hhit & Hpost)].
  - destruct (Z.eq_dec (snd a mod 40) 0) as [Ha|Ha].
    + right. exists [], a, sequence. now repeat split.
    + left. now constructor.
  - right. exists (a :: pre), hit, post. now repeat split.
Qed.

(** ** With loading *)

Lemma pop_while_below_spec (bound : Z) (reversed : list item) :
  exists dropped : list item,
    reversed = dropped ++ pop_while_below bound reversed
    /\ Forall (fun it : item => snd it < bound) dropped
    /\ match pop_while_below bound reversed with
       | [] => True
       | last :: _ => bound <= snd last
       end.
Proof.
  induction reversed as [|a reversed IH].
  - exists []. simpl. repeat split. constructor.
  - simpl. destruct (Z.ltb_spec (snd a) bound) as [Hlt|Hge].
    + destruct IH as (dropped & Heq & Hall & Hhead).
      exists (a :: dropped). simpl. rewrite <- Heq.
      repeat split; [now constructor|exact Hhead].
    + exists []. simpl. repeat split; [constructor|exact Hge].
Qed.

(** The trailing entries below the bound go; what is kept is empty or ends
    with an entry that reaches the bound. *)
Lemma drop_trailing_spec (bound : Z) (sequence : list item) :
  exists dropped : list item,
    sequence = drop_trailing bound sequence ++ dropped
    /\ Forall (fun it : item => snd it < bound) dropped
    /\ (drop_trailing bound sequence = []
        \/ exists init last,
             drop_trailing bound sequence = init ++ [last]
             /\ bound <= snd last).
Proof.
  unfold drop_trailing.
  destruct (pop_while_below_spec bound (rev sequence))
    as (dropped & Heq & Hall & Hhead).
  exists (rev dropped). split; [|split].
  - rewrite <- rev_app_distr, <- Heq. now rewrite rev_involutive.
  - now apply Forall_rev.
  - destruct (pop_while_below bound (rev sequence)) as [|last rest];
      [now left|].
    right. exists (rev rest), last. now split.
Qed.

Lemma drop_trailing_all_below (bound : Z) (sequence : list item) :
  Forall (fun it : item => snd it < bound) sequence ->
  drop_trailing bound sequence = [].
Proof.
  intros Hall.
  destruct (drop_trailing_spec bound sequence)
    as (dropped & Heq & _ & [Hnil|(init & last & Hkept & Hge)]);
    [exact Hnil|].
  rewrite Heq, Hkept in Hall.
  apply Forall_app in Hall. destruct Hall as [Hall _].
  apply Forall_app in Hall. destruct Hall as [_ Hlast].
  inversion Hlast; subst. lia.
Qed.

(** The steps handed to the solver: the leftover of the last entry kept,
    or the total when none is kept, less the steps of loading. *)
Lemma loading_leftover_eq (total loading : Z) (sequence : list item) :
  loading_leftover total loading sequence =
  Ok (drop_trailing (63 * 40 + loading) sequence,
      match get_last (drop_trailing (63 * 40 + loading) sequence) with
      | Ok last => snd last - loading
      | Raise _ => total - loading
      end).
Proof.
  unfold loading_leftover.
  change (ADVANCES_BY_WRITING_REPORT * ADVANCES_BY_CHANGING_SETTING)
    with (63 * 40).
  destruct sequence as [|a sequence]; [reflexivity|].
  change (len (a :: sequence) =? 0) with false. cbv iota.
  destruct (drop_trailing_spec (63 * 40 + loading) (a :: sequence))
    as (dropped & _ & _ & [Hnil|(init & last & Hkept & _)]).
  - rewrite Hnil. reflexivity.
  - rewrite Hkept.
    assert (Hlen : (len (init ++ [last]) =? 0) = false).
    { apply Z.eqb_neq. rewrite len_app. unfold len at 2. simpl length.
      pose proof (len_nonneg init). lia. }
    rewrite Hlen, get_last_snoc. reflexivity.
Qed.

(** ** Rebuilding the probes *)

Lemma reconstruct_length (tsv : option Z) (teams : list TeamPair) :
  forall lcg : Z, length (reconstruct tsv lcg teams) = length teams.
Proof.
  induction teams as [|t teams IH]; intros lcg; simpl; [reflexivity|].
  destruct (quick_battle generate_quick_battle decode_quick_battle lcg tsv).
  simpl. now rewrite IH.
Qed.

(** Replaying the probes rebuilt for [teams] leaves the generator
    [length teams] probes after the seed they were rebuilt from. *)
Lemma seed_after_reconstruct (tsv : option Z) (teams : list TeamPair) :
  forall lcg : Z,
    seed_after_records tsv lcg (reconstruct tsv lcg teams) =
    seed_after tsv (length teams) lcg.
Proof.
  unfold seed_after_records.
  induction teams as [|t teams IH]; intros lcg; [reflexivity|].
  assert (Hnext : next_seed tsv lcg
                  = snd (quick_battle generate_quick_battle
                           decode_quick_battle lcg tsv)) by reflexivity.
  simpl reconstruct. simpl length. simpl seed_after.
  destruct (quick_battle generate_quick_battle decode_quick_battle lcg tsv)
    as [decoded lcg1].
  simpl in Hnext. rewrite Hnext, <- (IH lcg1). simpl map. rewrite Hnext.
  apply last_cons_default.
Qed.

(** The leftover of the last entry of a prefix of the scan tells where the
    generator is after that prefix. *)
Lemma samples_last_leftover (current total : Z) (tsv : option Z) (n : nat)
    (lcg : Z) (init : list item) (l : item) (rest : list item) :
  samples n current total tsv lcg = (init ++ [l]) ++ rest ->
  get_index (seed_after tsv (length (init ++ [l])) lcg) current
  = total - snd l.
Proof.
  intros Heq. apply samples_prefix in Heq.
  assert (Hlen : length (init ++ [l]) = S (length init))
    by (rewrite length_app; simpl; lia).
  rewrite Hlen in *. rewrite samples_snoc in Heq.
  apply app_inj_tail in Heq. destruct Heq as [_ Hl].
  rewrite seed_after_S_r, Hl.
  unfold sample, index_from. simpl snd. lia.
Qed.

(** ** The planner after the scan *)

Lemma search_path_after_scan (fuel : nat) (current target : Z)
    (tsv opening : option Z) (lcg : Z) (sequence : list item)
    (overshoot : item) :
  scan fuel current (get_index target current) tsv current [] =
    Some (lcg, sequence ++ [overshoot]) ->
  search_path fuel current target tsv opening =
  Some (plan current target tsv opening sequence).
Proof.
  intros Hscan. unfold search_path. rewrite Hscan.
  now rewrite list_pop_snoc.
Qed.

Lemma plan_with_loading (current target : Z) (tsv : option Z) (opening : Z)
    (sequence : list item) :
  plan current target tsv (Some opening) sequence =
  let loading := (opening - 1) * 2 in
  let kept := drop_trailing (63 * 40 + loading) sequence in
  match
    _search_pair_with_the_smallest_sum
      match get_last kept with
      | Ok last => snd last - loading
      | Raise _ => get_index target current - loading
      end
  with
  | Ok (write_report, change_setting) =>
      Ok (reconstruct tsv current (map fst kept), change_setting, write_report)
  | Raise _ => Raise (CANNOT_REACH target current)
  end.
Proof.
  unfold plan. rewrite loading_leftover_eq. cbn [bind]. cbv zeta.
  destruct (_search_pair_with_the_smallest_sum _) as [[wr cs]|e]; reflexivity.
Qed.

Lemma plan_without_loading_empty (current target : Z) (tsv : option Z) :
  plan current target tsv None [] =
  if get_index target current mod 40 =? 0
  then Ok ([], get_index target current / 40, 0)
  else Raise (CANNOT_REACH target current).
Proof.
  unfold plan, plan_without_loading. simpl.
  change ADVANCES_BY_CHANGING_SETTING with 40.
  destruct (get_index target current mod 40 =? 0); reflexivity.
Qed.

Lemma plan_without_loading_chosen (current target : Z) (tsv : option Z)
    (pre : list item) (hit : item) (post : list item) :
  snd hit mod 40 = 0 ->
  Forall (fun it : item => snd it mod 40 <> 0) post ->
  plan current target tsv None (pre ++ hit :: post) =
  Ok (reconstruct tsv current
        (if len pre =? 0 then map fst (pre ++ hit :: post)
         else map fst (pre ++ [hit])),
      snd hit / 40, 0).
Proof.
  intros Hhit Hpost. unfold plan.
  rewrite (plan_without_loading_hit _ _ pre hit post Hhit Hpost).
  reflexivity.
Qed.

Lemma replayed_reconstruct (tsv : option Z) (current loading : Z)
    (teams : list TeamPair) (change_setting write_report : Z) :
  replayed_steps tsv current loading
    (reconstruct tsv current teams, change_setting, write_report)
  = get_index (seed_after tsv (length teams) current) current
    + loading + 40 * change_setting + 63 * write_report.
Proof.
  unfold replayed_steps, index_from.
  now rewrite seed_after_reconstruct.
Qed.

(** With loading, a path returned consumes exactly the step distance. *)
Lemma loading_path_reconciles (fuel : nat) (current target : Z)
    (tsv : option Z) (opening lcg : Z) (sequence : list item)
    (overshoot : item) (path : Path TeamPair PSVs) :
  get_index current current = 0 ->
  scan fuel current (get_index target current) tsv current [] =
    Some (lcg, sequence ++ [overshoot]) ->
  plan current target tsv (Some opening) sequence = Ok path ->
  replayed_steps tsv current ((opening - 1) * 2) path
  = get_index target current.
Proof.
  intros H0 Hscan Hplan. rewrite plan_with_loading in Hplan. cbv zeta in Hplan.
  destruct (drop_trailing_spec (63 * 40 + (opening - 1) * 2) sequence)
    as (dropped & Hseq & _ & Hkept).
  set (kept := drop_trailing (63 * 40 + (opening - 1) * 2) sequence) in *.
  destruct (_search_pair_with_the_smallest_sum _) as [[wr cs]|e] eqn:Hsolve;
    [|discriminate].
  apply solver_Ok_equation in Hsolve.
  injection Hplan as <-. rewrite replayed_reconstruct, length_map.
  destruct Hkept as [Hnil|(init & last & Hlast & _)].
  - rewrite Hnil in *.
    change (get_last (@nil item)) with (@Raise item IndexError) in Hsolve.
    cbv iota in Hsolve. change (seed_after tsv (length []) current) with current.
    lia.
  - rewrite Hlast in *. rewrite get_last_snoc in Hsolve.
    apply scan_samples in Hscan. destruct Hscan as (n & Hn & _).
    simpl in Hn. rewrite Hseq, <- app_assoc in Hn. symmetry in Hn.
    apply samples_last_leftover in Hn.
    unfold item in *. rewrite Hn. lia.
Qed.

(** Without loading, a path returned consumes exactly the step distance
    whenever the entry chosen is not the first one, or is the only one. *)
Lemma no_loading_path_reconciles_elsewhere (fuel : nat)
    (current target : Z) (tsv : option Z) (lcg : Z)
    (pre : list item) (hit : item) (post : list item) (overshoot : item) :
  scan fuel current (get_index target current) tsv current [] =
    Some (lcg, (pre ++ hit :: post) ++ [overshoot]) ->
  pre <> [] \/ post = [] ->
  snd hit mod 40 = 0 ->
  Forall (fun it : item => snd it mod 40 <> 0) post ->
  exists path,
    search_path fuel current target tsv None = Some (Ok path)
    /\ replayed_steps tsv current 0 path = get_index target current.
Proof.
  intros Hscan Hwhere Hhit Hpost.
  rewrite (search_path_after_scan _ _ _ _ None _ _ _ Hscan).
  rewrite (plan_without_loading_chosen _ _ _ pre hit post Hhit Hpost).
  eexists. split; [reflexivity|].
  assert (Hteams : (if len pre =? 0 then map fst (pre ++ hit :: post)
                    else map fst (pre ++ [hit]))
                   = map fst (pre ++ [hit])).
  { destruct pre as [|p pre]; [|reflexivity].
    destruct Hwhere as [Hpre| ->]; [contradiction|reflexivity]. }
  rewrite Hteams, replayed_reconstruct, length_map.
  apply scan_samples in Hscan. destruct Hscan as (n & Hn & _).
  assert (Hs : samples n current (get_index target current) tsv current
               = (pre ++ [hit]) ++ post ++ [overshoot]).
  { simpl in Hn. rewrite <- Hn, <- !app_assoc. reflexivity. }
  apply samples_last_leftover in Hs.
  unfold item in *. rewrite Hs.
  pose proof (Z.div_mod (snd hit) 40 ltac:(lia)). lia.
Qed.

(** Every probe advancing, the entries of a scan leave fewer steps than
    the seed they start from. *)
Lemma samples_below (current total : Z) (tsv : option Z) (b : Z) (n : nat) :
  (forall lcg : Z,
      get_index lcg current <= total ->
      get_index lcg current < get_index (next_seed tsv lcg) current) ->
  forall lcg : Z,
    b <= get_index lcg current ->
    (forall j : nat,
        (j < S n)%nat -> get_index (seed_after tsv j lcg) current <= total) ->
    Forall (fun it : item => snd it < total - b)
      (samples n current total tsv lcg).
Proof.
  intros Hstep. induction n as [|n IH]; intros lcg Hb Hbelow; [constructor|].
  pose proof (Hstep lcg (Hbelow O ltac:(lia))) as Hnext.
  simpl. constructor.
  - simpl. lia.
  - apply IH; [lia|]. intros j Hj. apply (Hbelow (S j)). lia.
Qed.

(** ** Claims on the planner *)

(** C7.  Without loading and with no entry retained, [search_path] returns
    the path with no probe, [total / 40] changes of setting and no report
    when 40 divides the total, and raises the exception that names both
    seeds when it does not; so it returns a path exactly when 40 divides
    the total. *)
Theorem no_loading_empty_sequence (fuel : nat) (current_seed target_seed : Z)
    (tsv : option Z) (lcg : Z) (overshoot : item) :
  scan fuel current_seed (get_index target_seed current_seed) tsv
    current_seed [] = Some (lcg, [overshoot]) ->
  (get_index target_seed current_seed mod 40 = 0 ->
   search_path fuel current_seed target_seed tsv None
   = Some (Ok ([], get_index target_seed current_seed / 40, 0)))
  /\ (get_index target_seed current_seed mod 40 <> 0 ->
      search_path fuel current_seed target_seed tsv None
      = Some (Raise (CANNOT_REACH target_seed current_seed)))
  /\ ((exists path,
          search_path fuel current_seed target_seed tsv None = Some (Ok path))
      <-> get_index target_seed current_seed mod 40 = 0).
Proof.
  intros Hscan.
  rewrite (search_path_after_scan _ _ _ _ None _ [] _ Hscan).
  rewrite plan_without_loading_empty.
  destruct (Z.eqb_spec (get_index target_seed current_seed mod 40) 0)
    as [Hdiv|Hndiv].
  - split; [reflexivity|]. split; [contradiction|].
    split; [intros _; exact Hdiv|intros _; now eexists].
  - split; [contradiction|]. split; [reflexivity|].
    split; [intros [path Hp]; discriminate|contradiction].
Qed.

(** C3, where the code departs from it.  Without loading, when the only
    retained entry whose leftover 40 divides is the first one, [search_path]
    returns [leftover / 40] changes of setting and no report, but the probes
    of every retained entry instead of the probe of the first entry alone. *)
Theorem no_loading_first_entry_keeps_every_probe (fuel : nat)
    (current_seed target_seed : Z) (tsv : option Z) (lcg : Z)
    (first : item) (rest : list item) (overshoot : item) :
  scan fuel current_seed (get_index target_seed current_seed) tsv
    current_seed [] = Some (lcg, (first :: rest) ++ [overshoot]) ->
  snd first mod 40 = 0 ->
  Forall (fun it : item => snd it mod 40 <> 0) rest ->
  exists records,
    search_path fuel current_seed target_seed tsv None
    = Some (Ok (records, snd first / 40, 0))
    /\ records = reconstruct tsv current_seed (map fst (first :: rest))
    /\ length records = S (length rest).
Proof.
  intros Hscan Hfirst Hrest.
  rewrite (search_path_after_scan _ _ _ _ None _ _ _ Hscan).
  rewrite (plan_without_loading_chosen _ _ _ [] first rest Hfirst Hrest).
  eexists. split; [reflexivity|]. split; [reflexivity|].
  rewrite reconstruct_length. simpl. now rewrite length_map.
Qed.

(** Where C3 holds: when the last retained entry whose leftover 40 divides
    is not the first one, the probes are cut after it. *)
Lemma no_loading_truncates_after_last_divisible (fuel : nat)
    (current_seed target_seed : Z) (tsv : option Z) (lcg : Z)
    (pre : list item) (hit : item) (post : list item) (overshoot : item) :
  scan fuel current_seed (get_index target_seed current_seed) tsv
    current_seed [] = Some (lcg, (pre ++ hit :: post) ++ [overshoot]) ->
  pre <> [] ->
  snd hit mod 40 = 0 ->
  Forall (fun it : item => snd it mod 40 <> 0) post ->
  search_path fuel current_seed target_seed tsv None
  = Some (Ok (reconstruct tsv current_seed (map fst (pre ++ [hit])),
              snd hit / 40, 0)).
Proof.
  intros Hscan Hpre Hhit Hpost.
  rewrite (search_path_after_scan _ _ _ _ None _ _ _ Hscan).
  rewrite (plan_without_loading_chosen _ _ _ pre hit post Hhit Hpost).
  destruct pre as [|p pre]; [contradiction|]. reflexivity.
Qed.

(** C1, where the code departs from it.  Without loading, when the first
    retained entry is the only one whose leftover 40 divides and it is not
    the last one, the path returned replays to a step count that is not the
    step distance. *)
Theorem no_loading_first_entry_misses_target (fuel : nat)
    (current_seed target_seed : Z) (tsv : option Z) (lcg : Z)
    (first : item) (middle : list item) (final overshoot : item) :
  scan fuel current_seed (get_index target_seed current_seed) tsv
    current_seed []
  = Some (lcg, (first :: middle ++ [final]) ++ [overshoot]) ->
  snd first mod 40 = 0 ->
  Forall (fun it : item => snd it mod 40 <> 0) (middle ++ [final]) ->
  exists path,
    search_path fuel current_seed target_seed tsv None = Some (Ok path)
    /\ replayed_steps tsv current_seed 0 path
       = get_index target_seed current_seed - snd final + snd first
    /\ replayed_steps tsv current_seed 0 path
       <> get_index target_seed current_seed.
Proof.
  intros Hscan Hfirst Hrest.
  rewrite (search_path_after_scan _ _ _ _ None _ _ _ Hscan).
  rewrite (plan_without_loading_chosen _ _ _ [] first _ Hfirst Hrest).
  eexists. split; [reflexivity|].
  change (if len (@nil item) =? 0
          then map fst ([] ++ first :: middle ++ [final])
          else map fst ([] ++ [first]))
    with (map fst (first :: middle ++ [final])).
  rewrite replayed_reconstruct, length_map.
  apply scan_samples in Hscan. destruct Hscan as (n & Hn & _).
  assert (Hs : samples n current_seed (get_index target_seed current_seed)
                 tsv current_seed
               = ((first :: middle) ++ [final]) ++ [overshoot])
    by (symmetry; exact Hn).
  apply samples_last_leftover in Hs.
  change (length (first :: middle ++ [final]))
    with (length ((first :: middle) ++ [final])).
  unfold item in *. rewrite Hs.
  apply Forall_app in Hrest. destruct Hrest as [_ Hfinal].
  inversion Hfinal as [|? ? Hf _]; subst.
  assert (Hdiv : 40 * (snd first / 40) = snd first).
  { pose proof (Z.div_mod (snd first) 40 ltac:(lia)). lia. }
  assert (Hne : snd first <> snd final) by congruence.
  lia.
Qed.

(** C5.  With loading and [1 <= opening], the steps of loading are
    [(opening - 1) * 2]; the retained entries split into those kept and the
    trailing ones dropped, each dropped one leaving strictly fewer than
    [63 * 40 + loading] steps and the last kept one, when there is one,
    leaving at least that many; and the solver is called on the leftover of
    the last entry kept less the steps of loading, or on the total less the
    steps of loading when no entry is kept. *)
Theorem loading_drops_trailing_entries (fuel : nat)
    (current_seed target_seed : Z) (tsv : option Z) (opening lcg : Z)
    (sequence : list item) (overshoot : item) :
  1 <= opening ->
  scan fuel current_seed (get_index target_seed current_seed) tsv
    current_seed [] = Some (lcg, sequence ++ [overshoot]) ->
  exists kept dropped : list item,
    sequence = kept ++ dropped
    /\ Forall (fun it : item => snd it < 63 * 40 + (opening - 1) * 2) dropped
    /\ (kept = []
        \/ exists init last,
             kept = init ++ [last] /\ 63 * 40 + (opening - 1) * 2 <= snd last)
    /\ search_path fuel current_seed target_seed tsv (Some opening)
       = Some
           match
             _search_pair_with_the_smallest_sum
               match get_last kept with
               | Ok last => snd last - (opening - 1) * 2
               | Raise _ =>
                   get_index target_seed current_seed - (opening - 1) * 2
               end
           with
           | Ok (write_report, change_setting) =>
               Ok (reconstruct tsv current_seed (map fst kept),
                   change_setting, write_report)
           | Raise _ => Raise (CANNOT_REACH target_seed current_seed)
           end.
Proof.
  intros _ Hscan.
  destruct (drop_trailing_spec (63 * 40 + (opening - 1) * 2) sequence)
    as (dropped & Hseq & Hdropped & Hkept).
  exists (drop_trailing (63 * 40 + (opening - 1) * 2) sequence), dropped.
  repeat split; try assumption.
  rewrite (search_path_after_scan _ _ _ _ (Some opening) _ _ _ Hscan).
  now rewrite plan_with_loading.
Qed.

(** What [search_path] returns is a path or the exception that names both
    seeds. *)
Lemma plan_Ok_or_cannot_reach (current target : Z) (tsv opening : option Z)
    (sequence : list item) :
  (exists path, plan current target tsv opening sequence = Ok path)
  \/ plan current target tsv opening sequence
     = Raise (CANNOT_REACH target current).
Proof.
  destruct opening as [opening|].
  - rewrite plan_with_loading. cbv zeta.
    destruct (_search_pair_with_the_smallest_sum _) as [[wr cs]|e];
      [left; now eexists|now right].
  - destruct (last_divisible_split sequence)
      as [Hall|(pre & hit & post & -> & Hhit & Hpost)].
    + destruct sequence as [|it sequence].
      * rewrite plan_without_loading_empty.
        destruct (_ =? 0); [left; now eexists|now right].
      * right. unfold plan.
        now rewrite plan_without_loading_none.
    + left. rewrite (plan_without_loading_chosen _ _ _ _ _ _ Hhit Hpost).
      now eexists.
Qed.

(** X17.  From a non-negative step distance, whatever [search_path] returns
    is either a path or the one exception that names the target and the
    current seed, never anything else; with loading, a path returned
    consumes exactly the step distance; and whenever the solver raises on
    the steps handed to it, [search_path] raises that exception. *)
Theorem search_path_fails_atomically (fuel : nat)
    (current_seed target_seed : Z) (tsv opening : option Z)
    (r : result (Path TeamPair PSVs)) :
  get_index current_seed current_seed = 0 ->
  0 <= get_index target_seed current_seed ->
  search_path fuel current_seed target_seed tsv opening = Some r ->
  ((exists path, r = Ok path)
   \/ r = Raise (CANNOT_REACH target_seed current_seed))
  /\ (forall path,
         opening <> None -> r = Ok path ->
         replayed_steps tsv current_seed (advances_by_loading opening) path
         = get_index target_seed current_seed)
  /\ (forall (n lcg : Z) (sequence : list item) (overshoot : item) (e : exn),
         opening = Some n ->
         scan fuel current_seed (get_index target_seed current_seed) tsv
           current_seed [] = Some (lcg, sequence ++ [overshoot]) ->
         _search_pair_with_the_smallest_sum
           match get_last (drop_trailing (63 * 40 + (n - 1) * 2) sequence)
           with
           | Ok last => snd last - (n - 1) * 2
           | Raise _ => get_index target_seed current_seed - (n - 1) * 2
           end = Raise e ->
         r = Raise (CANNOT_REACH target_seed current_seed)).
Proof.
  intros H0 Htotal Hsp.
  assert (Hscan : exists lcg sequence overshoot,
             scan fuel current_seed (get_index target_seed current_seed) tsv
               current_seed [] = Some (lcg, sequence ++ [overshoot])).
  { unfold search_path in Hsp.
    destruct (scan fuel current_seed _ tsv current_seed [])
      as [[lcg sequence]|] eqn:Hscan; [|discriminate].
    destruct (scan_from_current _ _ _ _ _ _ H0 Htotal Hscan)
      as (m & -> & _). now eexists _, _, _. }
  destruct Hscan as (lcg & sequence & overshoot & Hscan).
  rewrite (search_path_after_scan _ _ _ _ opening _ _ _ Hscan) in Hsp.
  injection Hsp as <-. split; [|split].
  - apply plan_Ok_or_cannot_reach.
  - intros path Hopening Hplan.
    destruct opening as [n|]; [|contradiction].
    exact (loading_path_reconciles _ _ _ _ _ _ _ _ _ H0 Hscan Hplan).
  - intros n lcg' sequence' overshoot' e -> Hscan' Hsolve.
    rewrite Hscan in Hscan'. injection Hscan' as _ Heq.
    apply app_inj_tail in Heq. destruct Heq as [<- _].
    rewrite plan_with_loading. cbv zeta. now rewrite Hsolve.
Qed.

(** C10.  The solver raises on every negative total; and with loading,
    when the steps of loading exceed a non-negative step distance and every
    probe advances the generator, [search_path] returns, with enough fuel,
    the exception that names both seeds. *)
Theorem loading_beyond_total_cannot_reach (current_seed target_seed : Z)
    (tsv : option Z) (opening : Z) :
  (forall total : Z,
      total < 0 -> exists e, _search_pair_with_the_smallest_sum total = Raise e)
  /\ (get_index current_seed current_seed = 0 ->
      0 <= get_index target_seed current_seed ->
      (forall lcg : Z,
          get_index lcg current_seed <= get_index target_seed current_seed ->
          get_index lcg current_seed
          < get_index (next_seed tsv lcg) current_seed) ->
      get_index target_seed current_seed - (opening - 1) * 2 < 0 ->
      forall fuel : nat,
        (Z.to_nat (get_index target_seed current_seed + 2) <= fuel)%nat ->
        search_path fuel current_seed target_seed tsv (Some opening)
        = Some (Raise (CANNOT_REACH target_seed current_seed))).
Proof.
  split.
  - intros total Hneg. eexists. now apply solver_negative.
  - intros H0 Htotal Hstep Hneg fuel Hfuel.
    destruct (scan_terminates current_seed _ tsv Hstep fuel current_seed [])
      as [[lcg sequence] Hscan]; [lia|].
    destruct (scan_from_current _ _ _ _ _ _ H0 Htotal Hscan)
      as (m & Hseq & Hbelow & _).
    rewrite Hseq in Hscan.
    rewrite (search_path_after_scan _ _ _ _ (Some opening) _ _ _ Hscan).
    rewrite plan_with_loading. cbv zeta.
    rewrite drop_trailing_all_below.
    + change (get_last (@nil item)) with (@Raise item IndexError). cbv iota.
      now rewrite solver_negative.
    + eapply Forall_impl;
        [|exact (samples_below current_seed _ tsv 0 m Hstep current_seed
                   ltac:(lia) Hbelow)].
      intros it Hit. simpl in Hit. lia.
Qed.

(** ** Further properties of the planner *)

(** A path returned comes from a scan that ended with an overshooting
    entry, and is what [plan] makes of the entries before it. *)
Lemma search_path_Ok_scan (fuel : nat) (current target : Z)
    (tsv opening : option Z) (path : Path TeamPair PSVs) :
  search_path fuel current target tsv opening = Some (Ok path) ->
  exists (lcg : Z) (sequence : list item) (overshoot : item),
    scan fuel current (get_index target current) tsv current []
    = Some (lcg, sequence ++ [overshoot])
    /\ plan current target tsv opening sequence = Ok path.
Proof.
  intros Hsp. unfold search_path in Hsp.
  destruct (scan fuel current _ tsv current []) as [[lcg sequence]|] eqn:Hscan;
    [|discriminate].
  destruct sequence as [|a sequence] using rev_ind; [discriminate|].
  rewrite list_pop_snoc in Hsp. cbn [bind] in Hsp.
  exists lcg, sequence, a. split; [reflexivity|congruence].
Qed.

(** The probes of a path are rebuilt for a list of teams no longer than the
    entries retained. *)
Lemma plan_Ok_reconstruct (current target : Z) (tsv opening : option Z)
    (sequence : list item) (records : list (record TeamPair PSVs))
    (change_setting write_report : Z) :
  plan current target tsv opening sequence
  = Ok (records, change_setting, write_report) ->
  exists teams : list TeamPair,
    records = reconstruct tsv current teams
    /\ (length teams <= length sequence)%nat.
Proof.
  intros Hplan. destruct opening as [opening|].
  - rewrite plan_with_loading in Hplan. cbv zeta in Hplan.
    destruct (drop_trailing_spec (63 * 40 + (opening - 1) * 2) sequence)
      as (dropped & Hseq & _).
    destruct (_search_pair_with_the_smallest_sum _) as [[wr cs]|e];
      [|discriminate].
    exists (map fst (drop_trailing (63 * 40 + (opening - 1) * 2) sequence)).
    split; [congruence|]. rewrite length_map.
    apply (f_equal (@length item)) in Hseq. rewrite length_app in Hseq.
    unfold item in *. lia.
  - destruct (last_divisible_split sequence)
      as [Hall|(pre & hit & post & -> & Hhit & Hpost)].
    + destruct sequence as [|it sequence].
      * rewrite plan_without_loading_empty in Hplan.
        destruct (_ =? 0); [|discriminate].
        injection Hplan as <- _ _. exists []. split; [reflexivity|simpl; lia].
      * unfold plan in Hplan.
        rewrite plan_without_loading_none in Hplan by (assumption || discriminate).
        discriminate.
    + rewrite (plan_without_loading_chosen _ _ _ _ _ _ Hhit Hpost) in Hplan.
      injection Hplan as <- _ _. eexists. split; [reflexivity|].
      destruct (len pre =? 0); rewrite length_map, !length_app; simpl; lia.
Qed.

Lemma reconstruct_nth (tsv : option Z) (teams : list TeamPair) :
  forall (lcg : Z) (j : nat) (r : record TeamPair PSVs),
    nth_error (reconstruct tsv lcg teams) j = Some r ->
    r = (fst (fst (quick_battle generate_quick_battle decode_quick_battle
                     (seed_after tsv j lcg) tsv)),
         seed_after tsv j lcg,
         snd (fst (quick_battle generate_quick_battle decode_quick_battle
                     (seed_after tsv j lcg) tsv))).
Proof.
  induction teams as [|t teams IH]; intros lcg j r Hnth.
  - destruct j; discriminate.
  - assert (Hnext : next_seed tsv lcg
                    = snd (quick_battle generate_quick_battle
                             decode_quick_battle lcg tsv)) by reflexivity.
    simpl reconstruct in Hnth.
    destruct (quick_battle generate_quick_battle decode_quick_battle lcg tsv)
      as [decoded lcg1] eqn:Hq.
    destruct j as [|j].
    + simpl in Hnth. injection Hnth as <-. simpl. now rewrite Hq.
    + simpl in Hnth. apply IH in Hnth. simpl seed_after.
      simpl in Hnext. now rewrite Hnext.
Qed.

(** With a step distance that is never negative, no entry leaves more
    steps than the total. *)
Lemma samples_le_total (current total : Z) (tsv : option Z) (n : nat) :
  forall lcg : Z,
    (forall j : nat, 0 <= get_index (seed_after tsv j lcg) current) ->
    Forall (fun it : item => snd it <= total)
      (samples n current total tsv lcg).
Proof.
  induction n as [|n IH]; intros lcg Hnonneg; [constructor|].
  simpl. constructor.
  - simpl. specialize (Hnonneg 1%nat). simpl in Hnonneg. lia.
  - apply IH. intros j. exact (Hnonneg (S j)).
Qed.

(** Every probe advancing, the index after [j] probes is at least [j]. *)
Lemma index_grows (current total : Z) (tsv : option Z) (n : nat) :
  (forall lcg : Z,
      get_index lcg current <= total ->
      get_index lcg current < get_index (next_seed tsv lcg) current) ->
  0 <= get_index current current ->
  (forall j : nat,
      (j < n)%nat -> get_index (seed_after tsv j current) current <= total) ->
  forall j : nat,
    (j <= n)%nat ->
    Z.of_nat j <= get_index (seed_after tsv j current) current.
Proof.
  intros Hstep H0 Hbelow. induction j as [|j IH]; intros Hj; [simpl; lia|].
  rewrite seed_after_S_r.
  specialize (IH ltac:(lia)). specialize (Hbelow j ltac:(lia)).
  specialize (Hstep _ Hbelow). lia.
Qed.

(** X1.  Without loading, a path returned consumes exactly the step
    distance unless the first retained entry is the only one whose leftover
    40 divides and other entries follow it. *)
Theorem no_loading_path_reconciles (fuel : nat)
    (current_seed target_seed : Z) (tsv : option Z) (lcg : Z)
    (sequence : list item) (overshoot : item) (path : Path TeamPair PSVs) :
  get_index current_seed current_seed = 0 ->
  scan fuel current_seed (get_index target_seed current_seed) tsv
    current_seed [] = Some (lcg, sequence ++ [overshoot]) ->
  (forall (first : item) (rest : list item),
      sequence = first :: rest -> rest <> [] -> snd first mod 40 = 0 ->
      Exists (fun it : item => snd it mod 40 = 0) rest) ->
  search_path fuel current_seed target_seed tsv None = Some (Ok path) ->
  replayed_steps tsv current_seed 0 path
  = get_index target_seed current_seed.
Proof.
  intros H0 Hscan Hfirst Hsp.
  destruct (last_divisible_split sequence)
    as [Hall|(pre & hit & post & Hseq & Hhit & Hpost)].
  - rewrite (search_path_after_scan _ _ _ _ None _ _ _ Hscan) in Hsp.
    destruct sequence as [|it sequence].
    + rewrite plan_without_loading_empty in Hsp.
      destruct (Z.eqb_spec (get_index target_seed current_seed mod 40) 0)
        as [Hdiv|]; [|discriminate].
      injection Hsp as <-.
      rewrite (replayed_reconstruct tsv current_seed 0 []). simpl seed_after.
      pose proof (Z.div_mod (get_index target_seed current_seed) 40
                    ltac:(lia)).
      lia.
    + unfold plan in Hsp.
      rewrite plan_without_loading_none in Hsp
        by (assumption || discriminate).
      discriminate.
  - subst sequence.
    assert (Hwhere : pre <> [] \/ post = []).
    { destruct pre as [|p pre]; [|left; discriminate].
      destruct post as [|q post]; [now right|]. exfalso.
      specialize (Hfirst hit (q :: post) eq_refl ltac:(discriminate) Hhit).
      apply Exists_exists in Hfirst. destruct Hfirst as (it & Hin & Hit).
      rewrite Forall_forall in Hpost. exact (Hpost it Hin Hit). }
    destruct (no_loading_path_reconciles_elsewhere _ _ _ _ _ _ _ _ _
                Hscan Hwhere Hhit Hpost) as (path' & Hsp' & Hsteps).
    rewrite Hsp in Hsp'. injection Hsp' as <-. exact Hsteps.
Qed.

(** X2.  Without loading and with entries retained, [search_path] returns a
    path exactly when 40 divides the leftover of one of them, and raises
    the exception that names both seeds otherwise. *)
Theorem no_loading_needs_divisible_leftover (fuel : nat)
    (current_seed target_seed : Z) (tsv : option Z) (lcg : Z)
    (sequence : list item) (overshoot : item) :
  scan fuel current_seed (get_index target_seed current_seed) tsv
    current_seed [] = Some (lcg, sequence ++ [overshoot]) ->
  sequence <> [] ->
  ((exists path,
       search_path fuel current_seed target_seed tsv None = Some (Ok path))
   <-> Exists (fun it : item => snd it mod 40 = 0) sequence)
  /\ (Forall (fun it : item => snd it mod 40 <> 0) sequence ->
      search_path fuel current_seed target_seed tsv None
      = Some (Raise (CANNOT_REACH target_seed current_seed))).
Proof.
  intros Hscan Hne.
  rewrite (search_path_after_scan _ _ _ _ None _ _ _ Hscan).
  assert (Hnone : Forall (fun it : item => snd it mod 40 <> 0) sequence ->
                  plan current_seed target_seed tsv None sequence
                  = Raise (CANNOT_REACH target_seed current_seed)).
  { intros Hall. unfold plan. now rewrite plan_without_loading_none. }
  split; [|intros Hall; now rewrite Hnone].
  destruct (last_divisible_split sequence)
    as [Hall|(pre & hit & post & -> & Hhit & Hpost)].
  - rewrite (Hnone Hall). split.
    + intros [path Hp]. discriminate.
    + intros Hex. apply Exists_exists in Hex.
      destruct Hex as (it & Hin & Hit).
      rewrite Forall_forall in Hall. destruct (Hall it Hin Hit).
  - rewrite (plan_without_loading_chosen _ _ _ _ _ _ Hhit Hpost). split.
    + intros _. apply Exists_exists. exists hit. split; [|exact Hhit].
      apply in_or_app. right. now left.
    + intros _. now eexists.
Qed.

(** X3.  With loading, [1 <= opening], no probed seed behind the current
    one and a total below [closed_form_limit], the counts of a path
    returned are non-negative and no non-negative combination of reports
    and changes of setting consumes the same steps in fewer actions. *)
Theorem loading_counts_minimal (fuel : nat) (current_seed target_seed : Z)
    (tsv : option Z) (opening : Z) (records : list (record TeamPair PSVs))
    (change_setting write_report : Z) :
  (forall j : nat,
      0 <= get_index (seed_after tsv j current_seed) current_seed) ->
  1 <= opening ->
  get_index target_seed current_seed < closed_form_limit ->
  search_path fuel current_seed target_seed tsv (Some opening)
  = Some (Ok (records, change_setting, write_report)) ->
  0 <= write_report /\ 0 <= change_setting
  /\ forall x' y' : Z,
       0 <= x' -> 0 <= y' ->
       63 * x' + 40 * y' = 63 * write_report + 40 * change_setting ->
       write_report + change_setting <= x' + y'.
Proof.
  intros Hnonneg Hopening Hlimit Hsp.
  destruct (search_path_Ok_scan _ _ _ _ _ _ Hsp)
    as (lcg & sequence & overshoot & Hscan & Hplan).
  rewrite plan_with_loading in Hplan. cbv zeta in Hplan.
  destruct (drop_trailing_spec (63 * 40 + (opening - 1) * 2) sequence)
    as (dropped & Hseq & _ & Hkept).
  set (kept := drop_trailing (63 * 40 + (opening - 1) * 2) sequence) in *.
  set (remainder := match get_last kept with
                    | Ok last => snd last - (opening - 1) * 2
                    | Raise _ =>
                        get_index target_seed current_seed
                        - (opening - 1) * 2
                    end) in *.
  assert (Hrem : remainder < closed_form_limit).
  { unfold remainder. destruct Hkept as [->|(init & last & -> & _)].
    - change (get_last (@nil item)) with (@Raise item IndexError).
      cbv iota. lia.
    - rewrite get_last_snoc.
      apply scan_samples in Hscan. destruct Hscan as (n & Hn & _).
      pose proof (samples_le_total current_seed
                    (get_index target_seed current_seed) tsv n
                    current_seed Hnonneg) as Hle.
      simpl in Hn. rewrite <- Hn, Hseq in Hle.
      apply Forall_app in Hle. destruct Hle as [Hle _].
      apply Forall_app in Hle. destruct Hle as [Hle _].
      apply Forall_app in Hle. destruct Hle as [_ Hle].
      inversion Hle; subst. lia. }
  destruct (_search_pair_with_the_smallest_sum remainder) as [[wr cs]|e]
    eqn:Hsolve; [|discriminate].
  assert (Hwr : write_report = wr) by congruence.
  assert (Hcs : change_setting = cs) by congruence.
  subst wr cs.
  pose proof (solver_Ok_equation _ _ _ Hsolve) as Heq.
  destruct (solver_Ok_minimal _ _ _ Hrem Hsolve) as [(Hx & Hy & _) Hmin].
  split; [exact Hx|]. split; [exact Hy|].
  intros x' y' Hx' Hy' Heq'. apply Hmin. unfold solution. lia.
Qed.

(** X4.  Without loading and from a non-negative step distance, a path
    returned has no report and a non-negative number of changes of
    setting. *)
Theorem no_loading_counts (fuel : nat) (current_seed target_seed : Z)
    (tsv : option Z) (records : list (record TeamPair PSVs))
    (change_setting write_report : Z) :
  get_index current_seed current_seed = 0 ->
  0 <= get_index target_seed current_seed ->
  search_path fuel current_seed target_seed tsv None
  = Some (Ok (records, change_setting, write_report)) ->
  write_report = 0 /\ 0 <= change_setting.
Proof.
  intros H0 Htotal Hsp.
  destruct (search_path_Ok_scan _ _ _ _ _ _ Hsp)
    as (lcg & sequence & overshoot & Hscan & Hplan).
  destruct (scan_from_current _ _ _ _ _ _ H0 Htotal Hscan)
    as (m & Hseq & Hbelow & _).
  apply app_inj_tail in Hseq. destruct Hseq as [Hseq _].
  pose proof (samples_nonneg current_seed _ tsv m current_seed Hbelow)
    as Hnonneg.
  rewrite <- Hseq in Hnonneg.
  destruct (last_divisible_split sequence)
    as [Hall|(pre & hit & post & Hsplit & Hhit & Hpost)].
  - destruct sequence as [|it sequence].
    + rewrite plan_without_loading_empty in Hplan.
      destruct (_ =? 0); [|discriminate].
      assert (Hcs : change_setting = get_index target_seed current_seed / 40)
        by congruence.
      split; [congruence|]. rewrite Hcs. apply Z.div_pos; lia.
    + unfold plan in Hplan.
      rewrite plan_without_loading_none in Hplan
        by (assumption || discriminate).
      discriminate.
  - rewrite Hsplit in Hplan, Hnonneg.
    rewrite (plan_without_loading_chosen _ _ _ _ _ _ Hhit Hpost) in Hplan.
    assert (Hcs : change_setting = snd hit / 40) by congruence.
    split; [congruence|]. rewrite Hcs.
    apply Forall_app in Hnonneg. destruct Hnonneg as [_ Hnonneg].
    inversion Hnonneg; subst. apply Z.div_pos; lia.
Qed.

(** X5.  When the target is the current seed and the first probe advances
    the generator, [search_path] returns the empty path without loading and
    with [opening = 1], and raises the exception that names both seeds with
    any greater [opening]. *)
Theorem already_at_target (fuel : nat) (current_seed : Z) (tsv : option Z) :
  get_index current_seed current_seed = 0 ->
  0 < get_index (next_seed tsv current_seed) current_seed ->
  (2 <= fuel)%nat ->
  search_path fuel current_seed current_seed tsv None = Some (Ok ([], 0, 0))
  /\ search_path fuel current_seed current_seed tsv (Some 1)
     = Some (Ok ([], 0, 0))
  /\ forall opening : Z,
       1 < opening ->
       search_path fuel current_seed current_seed tsv (Some opening)
       = Some (Raise (CANNOT_REACH current_seed current_seed)).
Proof.
  intros H0 Hfirst Hfuel.
  assert (Hscan : exists lcg overshoot,
             scan fuel current_seed (get_index current_seed current_seed) tsv
               current_seed [] = Some (lcg, [] ++ [overshoot])).
  { destruct fuel as [|[|fuel]]; [lia|lia|].
    unfold next_seed in Hfirst. simpl scan. unfold index_from.
    rewrite !H0. change (0 <=? 0) with true. cbv iota.
    destruct (quick_battle generate_quick_battle decode_quick_battle
                current_seed tsv) as [decoded lcg1].
    simpl in Hfirst.
    rewrite (proj2 (Z.leb_gt _ _) Hfirst). now eexists _, _. }
  destruct Hscan as (lcg & overshoot & Hscan).
  split; [|split].
  - rewrite (search_path_after_scan _ _ _ _ None _ _ _ Hscan).
    rewrite plan_without_loading_empty, H0. reflexivity.
  - rewrite (search_path_after_scan _ _ _ _ (Some 1) _ _ _ Hscan).
    rewrite plan_with_loading, H0. reflexivity.
  - intros opening Hopening.
    rewrite (search_path_after_scan _ _ _ _ (Some opening) _ _ _ Hscan).
    rewrite plan_with_loading, H0. cbv zeta.
    change (get_last (drop_trailing (63 * 40 + (opening - 1) * 2) []))
      with (@Raise item IndexError).
    cbv iota. now rewrite solver_negative by lia.
Qed.

(** X6.  Every probe begun at or below the total advancing the generator,
    a path returned has at most as many probes as there are steps to the
    target. *)
Theorem probes_bounded_by_distance (fuel : nat)
    (current_seed target_seed : Z) (tsv opening : option Z)
    (records : list (record TeamPair PSVs))
    (change_setting write_report : Z) :
  get_index current_seed current_seed = 0 ->
  (forall lcg : Z,
      get_index lcg current_seed <= get_index target_seed current_seed ->
      get_index lcg current_seed
      < get_index (next_seed tsv lcg) current_seed) ->
  search_path fuel current_seed target_seed tsv opening
  = Some (Ok (records, change_setting, write_report)) ->
  Z.of_nat (length records) <= get_index target_seed current_seed.
Proof.
  intros H0 Hstep Hsp.
  destruct (search_path_Ok_scan _ _ _ _ _ _ Hsp)
    as (lcg & sequence & overshoot & Hscan & Hplan).
  destruct (plan_Ok_reconstruct _ _ _ _ _ _ _ _ Hplan)
    as (teams & -> & Hlen).
  rewrite reconstruct_length.
  apply scan_samples in Hscan. destruct Hscan as (n & Hn & _ & _ & Hbelow).
  assert (Hcount : n = S (length sequence)).
  { apply (f_equal (@length item)) in Hn. simpl in Hn.
    rewrite samples_length, length_app in Hn. simpl in Hn. lia. }
  subst n.
  pose proof (index_grows current_seed _ tsv _ Hstep ltac:(lia) Hbelow
                (length sequence) ltac:(lia)) as Hgrow.
  specialize (Hbelow (length sequence) ltac:(lia)). lia.
Qed.

(** X7.  The records of a path follow the generator from the current
    seed: the record at position [j] holds the seed [j] probes after the
    current one, and the teams and the PSVs decoded from the quick battle
    generated at that seed. *)
Theorem records_follow_the_generator (fuel : nat)
    (current_seed target_seed : Z) (tsv opening : option Z)
    (records : list (record TeamPair PSVs))
    (change_setting write_report : Z) (j : nat) (r : record TeamPair PSVs) :
  search_path fuel current_seed target_seed tsv opening
  = Some (Ok (records, change_setting, write_report)) ->
  nth_error records j = Some r ->
  snd (fst r) = seed_after tsv j current_seed
  /\ (fst (fst r), snd r)
     = fst (quick_battle generate_quick_battle decode_quick_battle
              (seed_after tsv j current_seed) tsv).
Proof.
  intros Hsp Hnth.
  destruct (search_path_Ok_scan _ _ _ _ _ _ Hsp)
    as (lcg & sequence & overshoot & _ & Hplan).
  destruct (plan_Ok_reconstruct _ _ _ _ _ _ _ _ Hplan) as (teams & -> & _).
  apply reconstruct_nth in Hnth. subst r. simpl. split; [reflexivity|].
  now destruct (fst (quick_battle _ _ _ _)).
Qed.

(** The teams rebuilt for a path are those the scan decoded over as many
    iterations. *)
Lemma reconstruct_teams (current total : Z) (tsv : option Z)
    (teams : list TeamPair) :
  forall lcg : Z,
    map (fun r : record TeamPair PSVs => fst (fst r))
      (reconstruct tsv lcg teams)
    = map fst (samples (length teams) current total tsv lcg).
Proof.
  induction teams as [|t teams IH]; intros lcg; [reflexivity|].
  assert (Hnext : next_seed tsv lcg
                  = snd (quick_battle generate_quick_battle
                           decode_quick_battle lcg tsv)) by reflexivity.
  simpl reconstruct. simpl length. simpl samples. unfold sample at 1.
  destruct (quick_battle generate_quick_battle decode_quick_battle lcg tsv)
    as [decoded lcg1].
  simpl in Hnext. rewrite Hnext. simpl. now rewrite IH.
Qed.

Lemma samples_firstn (current total : Z) (tsv : option Z) (k : nat) :
  forall (n : nat) (lcg : Z),
    (k <= n)%nat ->
    firstn k (samples n current total tsv lcg)
    = samples k current total tsv lcg.
Proof.
  induction k as [|k IH]; intros n lcg Hk; [reflexivity|].
  destruct n as [|n]; [lia|]. simpl. f_equal. apply IH. lia.
Qed.

(** X8.  The teams of the records of a path are the teams the scan decoded
    for its first entries, in the same order. *)
Theorem teams_are_those_scanned (fuel : nat) (current_seed target_seed : Z)
    (tsv opening : option Z) (lcg : Z) (sequence : list item)
    (overshoot : item) (records : list (record TeamPair PSVs))
    (change_setting write_report : Z) :
  scan fuel current_seed (get_index target_seed current_seed) tsv
    current_seed [] = Some (lcg, sequence ++ [overshoot]) ->
  search_path fuel current_seed target_seed tsv opening
  = Some (Ok (records, change_setting, write_report)) ->
  map (fun r : record TeamPair PSVs => fst (fst r)) records
  = firstn (length records) (map fst sequence).
Proof.
  intros Hscan Hsp.
  rewrite (search_path_after_scan _ _ _ _ opening _ _ _ Hscan) in Hsp.
  assert (Hplan : plan current_seed target_seed tsv opening sequence
                  = Ok (records, change_setting, write_report))
    by congruence.
  destruct (plan_Ok_reconstruct _ _ _ _ _ _ _ _ Hplan)
    as (teams & -> & Hlen).
  apply scan_samples in Hscan. destruct Hscan as (n & Hn & _).
  simpl in Hn. symmetry in Hn. apply samples_prefix in Hn.
  rewrite reconstruct_length, firstn_map.
  rewrite (reconstruct_teams current_seed
             (get_index target_seed current_seed)).
  rewrite Hn, samples_firstn by exact Hlen. reflexivity.
Qed.

(** C6, where the code departs from it.  From a non-negative step distance
    and without loading, when the first retained entry is the only one
    whose leftover 40 divides and it is not the last one, [search_path]
    does not raise, and the path it returns is not a consistent one: its
    replay does not consume the step distance. *)
Theorem search_path_succeeds_inconsistently (fuel : nat)
    (current_seed target_seed : Z) (tsv : option Z) (lcg : Z)
    (first : item) (middle : list item) (final overshoot : item) :
  get_index current_seed current_seed = 0 ->
  0 <= get_index target_seed current_seed ->
  scan fuel current_seed (get_index target_seed current_seed) tsv
    current_seed []
  = Some (lcg, (first :: middle ++ [final]) ++ [overshoot]) ->
  snd first mod 40 = 0 ->
  Forall (fun it : item => snd it mod 40 <> 0) (middle ++ [final]) ->
  exists (r : result (Path TeamPair PSVs)) (path : Path TeamPair PSVs),
    search_path fuel current_seed target_seed tsv None = Some r
    /\ r = Ok path
    /\ r <> Raise (CANNOT_REACH target_seed current_seed)
    /\ replayed_steps tsv current_seed 0 path
       <> get_index target_seed current_seed.
Proof.
  intros _ _ Hscan Hfirst Hrest.
  rewrite (search_path_after_scan _ _ _ _ None _ _ _ Hscan).
  rewrite (plan_without_loading_chosen _ _ _ [] first _ Hfirst Hrest).
  eexists _, _. split; [reflexivity|]. split; [reflexivity|].
  split; [discriminate|].
  change (if len (@nil item) =? 0
          then map fst ([] ++ first :: middle ++ [final])
          else map fst ([] ++ [first]))
    with (map fst ((first :: middle) ++ [final])).
  rewrite replayed_reconstruct, length_map.
  apply scan_samples in Hscan. destruct Hscan as (n & Hn & _).
  assert (Hs : samples n current_seed (get_index target_seed current_seed)
                 tsv current_seed
               = ((first :: middle) ++ [final]) ++ [overshoot])
    by (symmetry; exact Hn).
  apply samples_last_leftover in Hs.
  unfold item in *. rewrite Hs.
  apply Forall_app in Hrest. destruct Hrest as [_ Hfinal].
  inversion Hfinal as [|? ? Hf _]; subst.
  assert (Hdiv : 40 * (snd first / 40) = snd first).
  { pose proof (Z.div_mod (snd first) 40 ltac:(lia)). lia. }
  assert (Hne : snd first <> snd final) by congruence.
  lia.
Qed.

End PlannerProperties.

(** ** The claims on the generator of the examples *)

(** Every quick battle of [FixedCost] advances the index. *)
Lemma FixedCost_advances (cost current total : Z) (tsv : option Z) :
  0 < cost ->
  forall lcg : Z,
    FixedCost.get_index lcg current <= total ->
    FixedCost.get_index lcg current
    < FixedCost.get_index
        (next_seed (FixedCost.generate_quick_battle cost)
           FixedCost.decode_quick_battle tsv lcg) current.
Proof.
  intros Hcost lcg _. unfold FixedCost.get_index, next_seed. simpl. lia.
Qed.

(** 70 steps to go and 30 steps a quick battle: the leftovers retained are
    40 and 10, and the path returned has both probes and one change of
    setting, 100 steps in all. *)
Lemma no_loading_first_entry_misses_target_witness :
  exists path,
    FixedCost.search_path 30 10 0 70 None None = Some (Ok path)
    /\ replayed_steps FixedCost.get_index (FixedCost.generate_quick_battle 30)
         FixedCost.decode_quick_battle None 0 0 path
       = 70 - 10 + 40
    /\ replayed_steps FixedCost.get_index (FixedCost.generate_quick_battle 30)
         FixedCost.decode_quick_battle None 0 0 path
       <> 70.
Proof.
  refine (no_loading_first_entry_misses_target FixedCost.get_index
            (FixedCost.generate_quick_battle 30) FixedCost.decode_quick_battle
            10 0 70 None 90 (0, 40) [] (30, 10) (60, -20) eq_refl eq_refl _).
  repeat constructor. simpl. discriminate.
Defined.

Lemma no_loading_first_entry_keeps_every_probe_witness :
  exists records,
    FixedCost.search_path 30 10 0 70 None None = Some (Ok (records, 1, 0))
    /\ records = [(0, 0, []); (30, 30, [])]
    /\ length records = 2%nat.
Proof.
  refine (no_loading_first_entry_keeps_every_probe FixedCost.get_index
            (FixedCost.generate_quick_battle 30) FixedCost.decode_quick_battle
            10 0 70 None 90 (0, 40) [(30, 10)] (60, -20) eq_refl eq_refl _).
  repeat constructor. simpl. discriminate.
Defined.

Lemma no_loading_empty_sequence_witness :
  FixedCost.search_path 50 10 0 40 None None = Some (Ok ([], 1, 0)).
Proof.
  exact (proj1
           (no_loading_empty_sequence FixedCost.get_index
              (FixedCost.generate_quick_battle 50)
              FixedCost.decode_quick_battle 10 0 40 None 50 (0, -10) eq_refl)
           eq_refl).
Defined.

(** 3000 steps to go, 100 steps a quick battle and [opening = 3]: the
    entries that leave 2900 down to 2600 steps are kept, and the solver is
    called on [2600 - 4]. *)
Lemma loading_drops_trailing_entries_witness :
  exists kept dropped : list (item Z),
    [(0, 2900); (100, 2800); (200, 2700); (300, 2600); (400, 2500);
     (500, 2400); (600, 2300); (700, 2200); (800, 2100); (900, 2000);
     (1000, 1900); (1100, 1800); (1200, 1700); (1300, 1600); (1400, 1500);
     (1500, 1400); (1600, 1300); (1700, 1200); (1800, 1100); (1900, 1000);
     (2000, 900); (2100, 800); (2200, 700); (2300, 600); (2400, 500);
     (2500, 400); (2600, 300); (2700, 200); (2800, 100); (2900, 0)]
    = kept ++ dropped
    /\ Forall (fun it : item Z => snd it < 63 * 40 + (3 - 1) * 2) dropped
    /\ (kept = []
        \/ exists init last,
             kept = init ++ [last] /\ 63 * 40 + (3 - 1) * 2 <= snd last)
    /\ FixedCost.search_path 100 100 0 3000 None (Some 3)
       = Some
           match
             _search_pair_with_the_smallest_sum
               match get_last kept with
               | Ok last => snd last - (3 - 1) * 2
               | Raise _ => FixedCost.get_index 3000 0 - (3 - 1) * 2
               end
           with
           | Ok (write_report, change_setting) =>
               Ok (reconstruct (FixedCost.generate_quick_battle 100)
                     FixedCost.decode_quick_battle None 0 (map fst kept),
                   change_setting, write_report)
           | Raise _ => Raise (CANNOT_REACH 3000 0)
           end.
Proof.
  refine (loading_drops_trailing_entries FixedCost.get_index
            (FixedCost.generate_quick_battle 100)
            FixedCost.decode_quick_battle 100 0 3000 None 3 3100 _ (3000, -100)
            _ eq_refl).
  lia.
Defined.

(** 5047 steps to go, 1000 steps a quick battle and [opening = 1]: two
    probes, 62 changes of setting and 9 reports. *)
Lemma search_path_fails_atomically_witness :
  FixedCost.search_path 1000 100 0 5047 None (Some 1)
  = Some (Ok ([(0, 0, []); (1000, 1000, [])], 62, 9))
  /\ replayed_steps FixedCost.get_index (FixedCost.generate_quick_battle 1000)
       FixedCost.decode_quick_battle None 0 0
       ([(0, 0, []); (1000, 1000, [])], 62, 9)
     = 5047.
Proof.
  assert (E : FixedCost.search_path 1000 100 0 5047 None (Some 1)
              = Some (Ok ([(0, 0, []); (1000, 1000, [])], 62, 9)))
    by (vm_compute; reflexivity).
  split; [exact E|].
  refine (proj1 (proj2
            (search_path_fails_atomically FixedCost.get_index
               (FixedCost.generate_quick_battle 1000)
               FixedCost.decode_quick_battle 100 0 5047 None (Some 1) _
               eq_refl _ E)) _ _ eq_refl).
  - unfold FixedCost.get_index. lia.
  - discriminate.
Defined.

Lemma scan_pop_never_fails_witness :
  exists (lcg : Z) (retained : list (item Z)) (overshoot : item Z),
    scan FixedCost.get_index (FixedCost.generate_quick_battle 30)
      FixedCost.decode_quick_battle 100 0 70 None 0 []
    = Some (lcg, retained ++ [overshoot])
    /\ list_pop (retained ++ [overshoot]) = Ok retained
    /\ snd overshoot < 0
    /\ Forall (fun it : item Z => 0 <= snd it) retained.
Proof.
  refine (scan_pop_never_fails FixedCost.get_index
            (FixedCost.generate_quick_battle 30) FixedCost.decode_quick_battle
            0 70 None eq_refl _ _ 100%nat _).
  - unfold FixedCost.get_index. lia.
  - apply FixedCost_advances. lia.
  - unfold FixedCost.get_index. lia.
Defined.

(** 47 steps to go and [opening = 100]: loading alone takes 198 steps. *)
Lemma loading_beyond_total_cannot_reach_witness :
  FixedCost.search_path 7 100 0 47 None (Some 100)
  = Some (Raise (CANNOT_REACH 47 0)).
Proof.
  refine (proj2
            (loading_beyond_total_cannot_reach FixedCost.get_index
               (FixedCost.generate_quick_battle 7)
               FixedCost.decode_quick_battle 0 47 None 100)
            eq_refl _ _ _ 100%nat _).
  - unfold FixedCost.get_index. lia.
  - apply FixedCost_advances. lia.
  - unfold FixedCost.get_index. lia.
  - unfold FixedCost.get_index. lia.
Defined.

(** ** Further properties of the solver *)

(** X9.  Whatever the rounding of the binary64 quotient, a pair the solver
    returns satisfies [63*x + 40*y = total], on every integer total. *)
Theorem solver_pair_reaches_total (total x y : Z) :
  _search_pair_with_the_smallest_sum total = Ok (x, y) ->
  63 * x + 40 * y = total.
Proof. apply solver_Ok_equation. Qed.

Lemma solver_pair_reaches_total_witness :
  _search_pair_with_the_smallest_sum (63 * 2 ^ 53 + 2520)
  = Ok (9007199254740712, 504)
  /\ 63 * 9007199254740712 + 40 * 504 = 63 * 2 ^ 53 + 2520.
Proof.
  assert (H : _search_pair_with_the_smallest_sum (63 * 2 ^ 53 + 2520)
              = Ok (9007199254740712, 504)) by (vm_compute; reflexivity).
  split; [exact H|]. exact (solver_pair_reaches_total _ _ _ H).
Defined.

(** X10.  Among the totals below [closed_form_limit], 2417 is the greatest
    on which the solver raises: it raises the exception of the exhaustive
    search on 2417, and returns a pair of non-negative counts on every
    total above 2417 and below [closed_form_limit]. *)
Theorem solver_returns_above_2417 :
  _search_pair_with_the_smallest_sum 2417 = Raise (Infeasible 2417)
  /\ forall total : Z,
       2417 < total < closed_form_limit ->
       exists x y : Z,
         _search_pair_with_the_smallest_sum total = Ok (x, y)
         /\ 0 <= x /\ 0 <= y.
Proof.
  split; [vm_compute; reflexivity|].
  intros total [Hlo Hhi].
  assert (Hok : exists x y,
             _search_pair_with_the_smallest_sum total = Ok (x, y)).
  { destruct (Z_lt_le_dec total 2520) as [Hlt|Hge].
    - assert (Hall : forallb
                       (fun k : nat =>
                          match
                            _search_pair_with_the_smallest_sum
                              (2418 + Z.of_nat k)
                          with
                          | Ok _ => true
                          | Raise _ => false
                          end) (seq 0 102) = true)
        by (vm_compute; reflexivity).
      rewrite forallb_forall in Hall.
      specialize (Hall (Z.to_nat (total - 2418))).
      replace (2418 + Z.of_nat (Z.to_nat (total - 2418))) with total
        in Hall by lia.
      destruct (_search_pair_with_the_smallest_sum total) as [[x y]|e].
      + now exists x, y.
      + assert (Hin : In (Z.to_nat (total - 2418)) (seq 0 102))
          by (apply in_seq; lia).
        specialize (Hall Hin). discriminate.
    - eexists _, _. apply closed_form_exact. lia. }
  destruct Hok as (x & y & Hok). exists x, y. split; [exact Hok|].
  destruct (solver_Ok_minimal total x y Hhi Hok) as [(Hx & Hy & _) _].
  now split.
Qed.

Lemma solver_returns_above_2417_witness :
  2417 < 2418 < closed_form_limit
  /\ exists x y : Z,
       _search_pair_with_the_smallest_sum 2418 = Ok (x, y)
       /\ 0 <= x /\ 0 <= y.
Proof.
  assert (H : 2417 < 2418 < closed_form_limit)
    by (unfold closed_form_limit; lia).
  split; [exact H|]. exact (proj2 solver_returns_above_2417 2418 H).
Defined.

(** X11.  Below 2520 the exhaustive search collects at most one pair:
    whichever pair it finds is the one returned, and the order in which
    [sorted] leaves pairs of equal sum never decides the result. *)
Theorem exhaustive_search_finds_one_pair (total : Z) (p : Z * Z) :
  total < 2520 ->
  In p (collect_pairs total) ->
  _search_pair_with_the_smallest_sum total = Ok p
  /\ forall q : Z * Z, In q (collect_pairs total) -> q = p.
Proof.
  intros Hlt Hp. destruct p as [x y].
  pose proof (proj1 (In_collect_pairs total x y) Hp) as Hs.
  split.
  - rewrite solver_below_2520 by assumption.
    destruct (under_2520_cases total)
      as [[_ Hnone]|(x0 & y0 & Hr & (Hs0 & _))].
    + destruct (Hnone x y Hs).
    + rewrite Hr.
      destruct (solution_unique_under_2520 total x y x0 y0 Hlt Hs Hs0).
      now subst.
  - intros [x' y'] Hq. apply In_collect_pairs in Hq.
    destruct (solution_unique_under_2520 total x' y' x y Hlt Hq Hs).
    now subst.
Qed.

Lemma exhaustive_search_finds_one_pair_witness :
  _search_pair_with_the_smallest_sum 103 = Ok (1, 1)
  /\ forall q : Z * Z, In q (collect_pairs 103) -> q = (1, 1).
Proof.
  refine (exhaustive_search_finds_one_pair 103 (1, 1) _ _); [lia|].
  vm_compute. now left.
Defined.

(** X12.  Below [closed_form_limit] the solver never returns 63 or more
    changes of setting. *)
Theorem solver_changes_setting_below_63 (total x y : Z) :
  total < closed_form_limit ->
  _search_pair_with_the_smallest_sum total = Ok (x, y) ->
  0 <= y < 63.
Proof.
  intros Hlim Hok. destruct (Z_lt_le_dec total 2520) as [Hlt|Hge].
  - destruct (solver_Ok_minimal total x y Hlim Hok) as [Hs _].
    unfold solution in Hs. lia.
  - rewrite closed_form_exact in Hok by lia.
    assert (Hy : y = -63 * (-11 * total / 63) - 11 * total) by congruence.
    pose proof (Z.div_mod (-11 * total) 63 ltac:(lia)).
    pose proof (Z.mod_pos_bound (-11 * total) 63 ltac:(lia)).
    lia.
Qed.

Lemma solver_changes_setting_below_63_witness :
  _search_pair_with_the_smallest_sum 100000 = Ok (1560, 43)
  /\ 0 <= 43 < 63.
Proof.
  assert (H : _search_pair_with_the_smallest_sum 100000 = Ok (1560, 43))
    by (vm_compute; reflexivity).
  split; [exact H|].
  refine (solver_changes_setting_below_63 100000 1560 43 _ H).
  unfold closed_form_limit. lia.
Defined.

(** X13.  In the range of the closed form, 63 steps more are one report
    more and the same changes of setting. *)
Theorem solver_one_more_report (total x y : Z) :
  2520 <= total ->
  total + 63 < closed_form_limit ->
  _search_pair_with_the_smallest_sum total = Ok (x, y) ->
  _search_pair_with_the_smallest_sum (total + 63) = Ok (x + 1, y).
Proof.
  intros Hlo Hhi Hok.
  rewrite closed_form_exact in Hok by lia.
  rewrite closed_form_exact by lia.
  replace (-11 * (total + 63)) with (-11 * total + -11 * 63) by ring.
  rewrite Z.div_add by lia.
  assert (Hx : x = 40 * (-11 * total / 63) + 7 * total) by congruence.
  assert (Hy : y = -63 * (-11 * total / 63) - 11 * total) by congruence.
  f_equal. f_equal; lia.
Qed.

Lemma solver_one_more_report_witness :
  _search_pair_with_the_smallest_sum 100000 = Ok (1560, 43)
  /\ _search_pair_with_the_smallest_sum (100000 + 63) = Ok (1560 + 1, 43).
Proof.
  assert (H : _search_pair_with_the_smallest_sum 100000 = Ok (1560, 43))
    by (vm_compute; reflexivity).
  split; [exact H|].
  refine (solver_one_more_report 100000 1560 43 _ _ H);
    unfold closed_form_limit; lia.
Defined.

(** X14.  In the range of the closed form, 40 steps more are one change of
    setting more, until the 63rd change is traded for 40 reports. *)
Theorem solver_one_more_change_of_setting (total x y : Z) :
  2520 <= total ->
  total + 40 < closed_form_limit ->
  _search_pair_with_the_smallest_sum total = Ok (x, y) ->
  _search_pair_with_the_smallest_sum (total + 40)
  = Ok (if y <? 62 then (x, y + 1) else (x + 40, 0)).
Proof.
  intros Hlo Hhi Hok.
  rewrite closed_form_exact in Hok by lia.
  rewrite closed_form_exact by lia.
  assert (Hx : x = 40 * (-11 * total / 63) + 7 * total) by congruence.
  assert (Hy : y = -63 * (-11 * total / 63) - 11 * total) by congruence.
  pose proof (Z.div_mod (-11 * total) 63 ltac:(lia)) as Hdm.
  pose proof (Z.mod_pos_bound (-11 * total) 63 ltac:(lia)) as Hr.
  set (t := -11 * total / 63) in *.
  destruct (Z.ltb_spec y 62) as [Hlt|Hge].
  - assert (Ht : -11 * (total + 40) / 63 = t - 7).
    { symmetry. apply (Z.div_unique_pos _ 63 _ (y + 1)); lia. }
    rewrite Ht. f_equal. f_equal; lia.
  - assert (Ht : -11 * (total + 40) / 63 = t - 6).
    { symmetry. apply (Z.div_unique_pos _ 63 _ 0); lia. }
    rewrite Ht. f_equal. f_equal; lia.
Qed.

Lemma solver_one_more_change_of_setting_witness :
  _search_pair_with_the_smallest_sum 100000 = Ok (1560, 43)
  /\ _search_pair_with_the_smallest_sum (100000 + 40)
     = Ok (if 43 <? 62 then (1560, 43 + 1) else (1560 + 40, 0)).
Proof.
  assert (H : _search_pair_with_the_smallest_sum 100000 = Ok (1560, 43))
    by (vm_compute; reflexivity).
  split; [exact H|].
  refine (solver_one_more_change_of_setting 100000 1560 43 _ _ H);
    unfold closed_form_limit; lia.
Defined.

(** ** The further properties on the generator of the examples *)

Lemma FixedCost_seed_after (cost : Z) (tsv : option Z) (j : nat) :
  forall lcg : Z,
    seed_after (FixedCost.generate_quick_battle cost)
      FixedCost.decode_quick_battle tsv j lcg
    = lcg + cost * Z.of_nat j.
Proof.
  induction j as [|j IH]; intros lcg; [simpl; lia|].
  simpl seed_after. rewrite IH. unfold next_seed. simpl. lia.
Qed.

(** 100 steps to go and 30 steps a quick battle: the leftovers retained are
    70, 40 and 10, and the path has two probes and one change of setting. *)
Lemma no_loading_path_reconciles_witness :
  replayed_steps FixedCost.get_index (FixedCost.generate_quick_battle 30)
    FixedCost.decode_quick_battle None 0 0
    ([(0, 0, []); (30, 30, [])], 1, 0)
  = 100.
Proof.
  refine (no_loading_path_reconciles FixedCost.get_index
            (FixedCost.generate_quick_battle 30)
            FixedCost.decode_quick_battle 10 0 100 None 120
            [(0, 70); (30, 40); (60, 10)] (90, -20)
            ([(0, 0, []); (30, 30, [])], 1, 0) eq_refl eq_refl _ eq_refl).
  intros first rest Hseq _ Hfirst. exfalso.
  injection Hseq as <- _. simpl in Hfirst. discriminate.
Defined.

Lemma no_loading_needs_divisible_leftover_witness :
  ((exists path,
       FixedCost.search_path 30 10 0 100 None None = Some (Ok path))
   <-> Exists (fun it : item Z => snd it mod 40 = 0)
         [(0, 70); (30, 40); (60, 10)])
  /\ (Forall (fun it : item Z => snd it mod 40 <> 0)
        [(0, 70); (30, 40); (60, 10)] ->
      FixedCost.search_path 30 10 0 100 None None
      = Some (Raise (CANNOT_REACH 100 0))).
Proof.
  refine (no_loading_needs_divisible_leftover FixedCost.get_index
            (FixedCost.generate_quick_battle 30)
            FixedCost.decode_quick_battle 10 0 100 None 120
            [(0, 70); (30, 40); (60, 10)] (90, -20) eq_refl _).
  discriminate.
Defined.

Lemma loading_counts_minimal_witness :
  FixedCost.search_path 1000 100 0 5047 None (Some 1)
  = Some (Ok ([(0, 0, []); (1000, 1000, [])], 62, 9))
  /\ 0 <= 9 /\ 0 <= 62
  /\ forall x' y' : Z,
       0 <= x' -> 0 <= y' ->
       63 * x' + 40 * y' = 63 * 9 + 40 * 62 -> 9 + 62 <= x' + y'.
Proof.
  split; [vm_compute; reflexivity|].
  refine (loading_counts_minimal FixedCost.get_index
            (FixedCost.generate_quick_battle 1000)
            FixedCost.decode_quick_battle 100 0 5047 None 1
            [(0, 0, []); (1000, 1000, [])] 62 9 _ _ _ _).
  - intros j. rewrite FixedCost_seed_after. unfold FixedCost.get_index. lia.
  - lia.
  - unfold FixedCost.get_index, closed_form_limit. lia.
  - vm_compute. reflexivity.
Defined.

Lemma no_loading_counts_witness :
  FixedCost.search_path 30 10 0 100 None None
  = Some (Ok ([(0, 0, []); (30, 30, [])], 1, 0))
  /\ 0 = 0 /\ 0 <= 1.
Proof.
  split; [reflexivity|].
  refine (no_loading_counts FixedCost.get_index
            (FixedCost.generate_quick_battle 30)
            FixedCost.decode_quick_battle 10 0 100 None
            [(0, 0, []); (30, 30, [])] 1 0 eq_refl _ eq_refl).
  unfold FixedCost.get_index. lia.
Defined.

Lemma already_at_target_witness :
  FixedCost.search_path 30 2 0 0 None None = Some (Ok ([], 0, 0))
  /\ FixedCost.search_path 30 2 0 0 None (Some 1) = Some (Ok ([], 0, 0))
  /\ forall opening : Z,
       1 < opening ->
       FixedCost.search_path 30 2 0 0 None (Some opening)
       = Some (Raise (CANNOT_REACH 0 0)).
Proof.
  refine (already_at_target FixedCost.get_index
            (FixedCost.generate_quick_battle 30)
            FixedCost.decode_quick_battle 2 0 None eq_refl _ _).
  - unfold FixedCost.get_index, next_seed. simpl. lia.
  - lia.
Defined.

Lemma probes_bounded_by_distance_witness :
  FixedCost.search_path 30 10 0 100 None None
  = Some (Ok ([(0, 0, []); (30, 30, [])], 1, 0))
  /\ Z.of_nat (length [(0, 0, @nil Z); (30, 30, [])]) <= 100.
Proof.
  split; [reflexivity|].
  refine (probes_bounded_by_distance FixedCost.get_index
            (FixedCost.generate_quick_battle 30)
            FixedCost.decode_quick_battle 10 0 100 None None
            [(0, 0, []); (30, 30, [])] 1 0 eq_refl _ eq_refl).
  apply FixedCost_advances. lia.
Defined.

Lemma records_follow_the_generator_witness :
  snd (fst (30, 30, @nil Z))
  = seed_after (FixedCost.generate_quick_battle 30)
      FixedCost.decode_quick_battle None 1 0
  /\ (fst (fst (30, 30, @nil Z)), snd (30, 30, @nil Z))
     = fst (quick_battle (FixedCost.generate_quick_battle 30)
              FixedCost.decode_quick_battle
              (seed_after (FixedCost.generate_quick_battle 30)
                 FixedCost.decode_quick_battle None 1 0) None).
Proof.
  exact (records_follow_the_generator FixedCost.get_index
           (FixedCost.generate_quick_battle 30)
           FixedCost.decode_quick_battle 10 0 100 None None
           [(0, 0, []); (30, 30, [])] 1 0 1 (30, 30, []) eq_refl eq_refl).
Defined.

Lemma teams_are_those_scanned_witness :
  map (fun r : record Z (list Z) => fst (fst r)) [(0, 0, []); (30, 30, [])]
  = firstn 2 (map fst [(0, 70); (30, 40); (60, 10)]).
Proof.
  exact (teams_are_those_scanned FixedCost.get_index
           (FixedCost.generate_quick_battle 30)
           FixedCost.decode_quick_battle 10 0 100 None None 120
           [(0, 70); (30, 40); (60, 10)] (90, -20)
           [(0, 0, []); (30, 30, [])] 1 0 eq_refl eq_refl).
Defined.

(** 70 steps to go and 30 steps a quick battle, without loading: the two
    hypotheses on the step distance hold, and the path returned replays
    100 steps. *)
Lemma search_path_succeeds_inconsistently_witness :
  exists (r : result (Path Z (list Z))) (path : Path Z (list Z)),
    FixedCost.search_path 30 10 0 70 None None = Some r
    /\ r = Ok path
    /\ r <> Raise (CANNOT_REACH 70 0)
    /\ replayed_steps FixedCost.get_index (FixedCost.generate_quick_battle 30)
         FixedCost.decode_quick_battle None 0 0 path
       <> 70.
Proof.
  refine (search_path_succeeds_inconsistently FixedCost.get_index
            (FixedCost.generate_quick_battle 30) FixedCost.decode_quick_battle
            10 0 70 None 90 (0, 40) [] (30, 10) (60, -20)
            eq_refl _ eq_refl eq_refl _).
  - unfold FixedCost.get_index. lia.
  - repeat constructor. simpl. discriminate.
Defined.
